(** * SimCLR-nashAE: the training script [train.py]

    A shallow embedding of the script's own code: the running-average
    meter, the paired-sample dataset adapter, the NT-Xent contrastive loss,
    the cosine learning-rate schedule and the training-loop driver.

    Conventions of the embedding.
    - Python floats and tensor entries are real numbers ([R]); rounding,
      overflow, [inf] and [nan] have no counterpart.  Equalities and
      bounds between computed values are therefore statements of real
      arithmetic: the code meets them up to floating-point rounding, and
      only while its float32 tensors stay in range (row norms up to
      [norm_max]).  Division is Rocq's total division, so the mean over an
      empty batch is a number here where the code returns [nan].
    - [get_lr] is given a second time on IEEE binary64 numbers
      ([get_lr_binary64]), the arithmetic of Python floats, to tell what
      holds bit for bit from what holds up to rounding.
    - Python [int]s are [Z]; list and tensor indices are [nat].
    - A 2-d tensor is a list of rows ([list (list R)]); a 1-d integer tensor
      is [list Z].
    - Code that can raise returns [option] or an [outcome]; the training loop
      threads its mutable state through a small state-and-exception monad.
    - Library operations the script calls ([F.normalize], [clamp],
      [torch.eye], [F.cross_entropy], [LambdaLR], default batch collation,
      [Tensor.view]) are written out from their documented meaning.
    - External collaborators whose code is not part of the script (the
      augmentation pipeline, the data loader's sampling, the representation
      model) are parameters. *)

From Stdlib Require Import Floats String Reals Lra Lia ZArith Bool Arith List.
Import ListNotations.
Open Scope R_scope.
#[local] Set Warnings "-inexact-float".

(** ** Real-valued tensors *)

Definition vector := list R.
Definition matrix := list (list R).

Definition rsum (v : list R) : R := fold_right Rplus 0 v.

Definition dot (u v : vector) : R :=
  rsum (map (fun p => fst p * snd p) (combine u v)).

(** [torch.linalg.vector_norm(v, 2)]. *)
Definition l2_norm (v : vector) : R := sqrt (rsum (map (fun a => a * a) v)).

(** Default [eps] of [F.normalize]. *)
Definition normalize_eps : R := 1e-12.

(** [F.normalize(x, dim=1)]: every row [v] becomes [v / max(||v||_2, eps)]. *)
Definition normalize_row (v : vector) : vector :=
  map (fun a => a / Rmax (l2_norm v) normalize_eps) v.

Definition normalize (x : matrix) : matrix := map normalize_row x.

(** [x @ y.T]: entry (i, j) is the dot product of row i of [x] and row j
    of [y]. *)
Definition matmul_T (x y : matrix) : matrix :=
  map (fun u => map (fun v => dot u v) y) x.

(** [m.clamp(min=lo)]. *)
Definition clamp_min (lo : R) (m : matrix) : matrix :=
  map (map (fun a => Rmax a lo)) m.

(** [m / t] and [m * c] for a scalar. *)
Definition mat_div (m : matrix) (t : R) : matrix := map (map (fun a => a / t)) m.
Definition mat_scale (m : matrix) (c : R) : matrix := map (map (fun a => a * c)) m.

(** Entrywise [a - b] of two tensors of the same shape. *)
Definition mat_sub (a b : matrix) : matrix :=
  map (fun rs => map (fun p => fst p - snd p) (combine (fst rs) (snd rs)))
      (combine a b).

(** [torch.eye(n)]. *)
Definition eye (n : nat) : matrix :=
  map (fun i => map (fun j => if Nat.eqb i j then 1 else 0) (seq 0 n)) (seq 0 n).

(** ** Integer index tensors *)

(** [torch.arange(n)]. *)
Definition arange (n : nat) : list Z := map Z.of_nat (seq 0 n).

(** [l[start::step] += d]: in-place addition on the strided slice. *)
Definition slice_iadd (start step : nat) (d : Z) (l : list Z) : list Z :=
  map (fun p =>
         if (Nat.leb start (fst p) && Nat.eqb ((fst p - start) mod step) 0)%bool
         then (snd p + d)%Z else snd p)
      (combine (seq 0 (length l)) l).

(** ** [F.cross_entropy] with class-index targets and mean reduction *)

Definition logsumexp (row : vector) : R := ln (rsum (map exp row)).

Definition log_softmax (row : vector) : vector :=
  map (fun z => z - logsumexp row) row.

(** Negative log-likelihood of class [t] under the softmax of [row]; a
    target outside [0, C) is an error. *)
Definition nll_row (row : vector) (t : Z) : option R :=
  if ((0 <=? t)%Z && (t <? Z.of_nat (length row))%Z)%bool
  then Some (- nth (Z.to_nat t) (log_softmax row) 0)
  else None.

(** Row-wise losses; the batch sizes of input and target must agree. *)
Fixpoint nll_rows (input : matrix) (target : list Z) : option (list R) :=
  match input, target with
  | [], [] => Some []
  | row :: input', t :: target' =>
      match nll_row row t, nll_rows input' target' with
      | Some a, Some l => Some (a :: l)
      | _, _ => None
      end
  | _, _ => None
  end.

Definition mean (l : list R) : R := rsum l / INR (length l).

Definition cross_entropy (input : matrix) (target : list Z) : option R :=
  option_map mean (nll_rows input target).

(** ** [nt_xent] (train.py, lines 62-76) *)

(** Lines 73-75: the targets of the 2N rows. *)
Definition nt_xent_targets (n : nat) : list Z :=
  let targets := arange n in
  let targets := slice_iadd 0 2 1 targets in      (* targets[::2] += 1 *)
  let targets := slice_iadd 1 2 (-1) targets in   (* targets[1::2] -= 1 *)
  targets.

(** Lines 63-70: the logit matrix handed to the cross-entropy. *)
Definition nt_xent_logits (x : matrix) (t : R) : matrix :=
  let x := normalize x in
  let x_scores := clamp_min 1e-7 (matmul_T x x) in
  let x_scale := mat_div x_scores t in
  mat_sub x_scale (mat_scale (eye (length x_scale)) 1e5).

Definition nt_xent (x : matrix) (t : R) : option R :=
  cross_entropy (nt_xent_logits x t) (nt_xent_targets (length (normalize x))).

(** ** [get_lr] (train.py, lines 79-81) *)

(** [step / total_steps] raises [ZeroDivisionError] when [total_steps] is 0. *)
Definition get_lr (step total_steps lr_max lr_min : R) : option R :=
  if Req_dec_T total_steps 0 then None
  else Some (lr_min + (lr_max - lr_min) * 0.5 * (1 + cos (step / total_steps * PI))).

(** The same expression on IEEE binary64 numbers, the arithmetic of Python
    floats, for arguments that are floats or integers below 2^53.  [np.pi]
    is the double nearest to pi; [np.cos] is the platform's and is left
    open. *)
Definition np_pi : float := 0x1.921fb54442d18p+1%float.

Definition get_lr_binary64 (np_cos : float -> float)
  (step total_steps lr_max lr_min : float) : option float :=
  if PrimFloat.eqb total_steps 0 then None
  else Some (lr_min + (lr_max - lr_min) * 0.5
                      * (1 + np_cos (step / total_steps * np_pi)))%float.

(** ** [AverageMeter] (train.py, lines 24-40) *)

Record AverageMeter := mkAverageMeter {
  name : string;
  val : R;
  avg : R;
  sum : R;
  count : Z
}.

Definition reset (m : AverageMeter) : AverageMeter :=
  {| name := name m; val := 0; avg := 0; sum := 0; count := 0 |}.

(** [AverageMeter(name)]: the constructor stores the name and resets. *)
Definition new_meter (nm : string) : AverageMeter :=
  reset {| name := nm; val := 0; avg := 0; sum := 0; count := 0 |}.

(** [update(val, n)]; the division raises [ZeroDivisionError] when the new
    count is 0. *)
Definition update (m : AverageMeter) (v : R) (n : Z) : option AverageMeter :=
  let sum' := sum m + v * IZR n in
  let count' := (count m + n)%Z in
  if (count' =? 0)%Z then None
  else Some {| name := name m; val := v; avg := sum' / IZR count';
               sum := sum'; count := count' |}.

(** A sequence of [update] calls, stopping at the first one that raises. *)
Fixpoint updates (m : AverageMeter) (calls : list (R * Z)) : option AverageMeter :=
  match calls with
  | [] => Some m
  | (v, n) :: rest =>
      match update m v n with
      | Some m' => updates m' rest
      | None => None
      end
  end.

(** ** [CIFAR10Pair] and the batch layout (train.py, lines 43-49, 147-149) *)

Section PairedDataset.

(** Raw image arrays, PIL images, augmented view tensors (C x H x W) and
    the state of the random generator the augmentations draw from. *)
Variables Array Image View Rng : Type.

(** [Image.fromarray]. *)
Variable fromarray : Array -> Image.

(** [self.transform]: the random augmentation pipeline; every call
    consumes randomness and leaves the generator in a new state. *)
Variable transform : Image -> Rng -> View * Rng.

Record CIFAR10 := mkCIFAR10 {
  data : list Array;
  targets : list Z
}.

(** [CIFAR10Pair.__getitem__]; an index past the end raises. *)
Definition getitem (ds : CIFAR10) (idx : nat) (g : Rng)
  : option ((list View * Z) * Rng) :=
  match nth_error (data ds) idx, nth_error (targets ds) idx with
  | Some img, Some target =>
      let img := fromarray img in
      let (v1, g1) := transform img g in
      let (v2, g2) := transform img g1 in
      let imgs := [v1; v2] in
      Some ((imgs, target), g2)          (* torch.stack(imgs), target *)
  | _, _ => None
  end.

(** The loader fetches the samples of one batch of indices in order. *)
Fixpoint fetch (ds : CIFAR10) (idxs : list nat) (g : Rng)
  : option (list (list View * Z) * Rng) :=
  match idxs with
  | [] => Some ([], g)
  | idx :: rest =>
      match getitem ds idx g with
      | Some (item, g1) =>
          match fetch ds rest g1 with
          | Some (items, g2) => Some (item :: items, g2)
          | None => None
          end
      | None => None
      end
  end.

(** Default collation: N samples [(pair, target)] become the tensor of
    shape (N, 2, C, H, W) and the tensor of the N targets. *)
Definition collate (items : list (list View * Z)) : list (list View) * list Z :=
  (map fst items, map snd items).

(** [x.view(sizes[0] * 2, sizes[2], sizes[3], sizes[4])] on a tensor of
    shape (sizes[0], sizes[1], ...): the first two dimensions are merged in
    row-major order; the element counts agree only if [sizes[1]] is 2. *)
Definition view_pairs (x : list (list View)) : option (list View) :=
  if forallb (fun p => Nat.eqb (length p) 2) x then Some (concat x) else None.

End PairedDataset.

Arguments data {Array}.
Arguments targets {Array}.
Arguments mkCIFAR10 {Array}.
Arguments getitem {Array Image View Rng}.
Arguments fetch {Array Image View Rng}.
Arguments collate {View}.
Arguments view_pairs {View}.

(** ** The training-loop driver [train] (train.py, lines 95-164) *)

Record Config := mkConfig {
  projection_dim : Z;
  data_dir : string;
  batch_size : Z;
  workers : Z;
  backbone : string;
  learning_rate : R;
  momentum : R;
  weight_decay : R;
  epochs : Z;
  temperature : R;
  log_interval : Z
}.

(** The visible side effects of a run, in the order they happen. *)
Inductive event :=
| EvLoadDataset (dir : string)          (* CIFAR10Pair(root, download=True) *)
| EvBuildLoader (batch : Z)             (* DataLoader(train_set, ...) *)
| EvPretrainDisentangler                (* get_disentangler: n_fit *)
| EvBuildModel (arch : string)          (* SimCLR(base_encoder, ...) *)
| EvOptimizerStep (lr : R)              (* optimizer.step() at rate lr *)
| EvSaveCheckpoint (arch : string) (epoch : Z).

Inductive exn := AssertionError | ZeroDivisionError | RuntimeError | IndexError.

Inductive outcome (A : Type) :=
| Ok (a : A)
| Raise (e : exn).
Arguments Ok {A}.
Arguments Raise {A}.

(** The mutable state of a run: the trace of effects so far, the rate held
    by the optimizer's parameter group, the scheduler's step counter and
    the loss meter of the current epoch. *)
Record state := mkState {
  trace : list event;
  opt_lr : R;
  last_epoch : Z;
  loss_meter : AverageMeter
}.

Definition M (A : Type) : Type := state -> state * outcome A.

Definition ret {A} (a : A) : M A := fun st => (st, Ok a).

Definition raise {A} (e : exn) : M A := fun st => (st, Raise e).

Definition bind {A B} (c : M A) (k : A -> M B) : M B :=
  fun st =>
    match c st with
    | (st', Ok a) => k a st'
    | (st', Raise e) => (st', Raise e)
    end.

Notation "x <- c1 ;; c2" := (bind c1 (fun x => c2))
  (at level 61, c1 at next level, right associativity).
Notation "c1 ;; c2" := (bind c1 (fun _ => c2))
  (at level 61, right associativity).

Definition emit (e : event) : M unit :=
  fun st => ({| trace := trace st ++ [e]; opt_lr := opt_lr st;
                last_epoch := last_epoch st; loss_meter := loss_meter st |}, Ok tt).

Definition lift {A} (o : option A) (e : exn) : M A :=
  match o with
  | Some a => ret a
  | None => raise e
  end.

(** A [for] loop: the body runs on every element in order; an exception
    leaves the loop. *)
Fixpoint for_each {A} (l : list A) (body : A -> M unit) : M unit :=
  match l with
  | [] => ret tt
  | a :: rest => body a ;; for_each rest body
  end.

(** [range(lo, lo + n)]. *)
Definition range (lo : Z) (n : nat) : list Z :=
  map (fun i => (lo + Z.of_nat i)%Z) (seq 0 n).

Section Train.

Variable View : Type.

(** What the run receives from its collaborators: the number of batches
    the loader yields per epoch, the tensor [x] of the batch at position
    [i] of epoch [e], and the embedding matrix [rep] the model returns for
    the flattened batch at that iteration. *)
Record World := mkWorld {
  len_train_loader : nat;
  batch_at : Z -> nat -> list (list View);
  model : Z -> nat -> list View -> matrix
}.

Variable args : Config.
Variable w : World.

(** [args.epochs * len(train_loader)]. *)
Definition total_steps : Z := (epochs args * Z.of_nat (len_train_loader w))%Z.

(** The [lr_lambda] handed to [LambdaLR] (lines 136-140). *)
Definition lr_lambda (step : Z) : option R :=
  get_lr (IZR step) (IZR total_steps) (learning_rate args) 1e-3.

(** [torch.optim.SGD(model.parameters(), args.learning_rate, ...)]. *)
Definition make_optimizer : M unit :=
  fun st => ({| trace := trace st; opt_lr := learning_rate args;
                last_epoch := last_epoch st; loss_meter := loss_meter st |}, Ok tt).

(** [LambdaLR.step]: the counter advances and the group's rate becomes
    the base rate (the rate the optimizer was built with) times
    [lr_lambda] of the counter. *)
Definition scheduler_step : M unit :=
  fun st =>
    let k := (last_epoch st + 1)%Z in
    let st' := {| trace := trace st; opt_lr := opt_lr st;
                  last_epoch := k; loss_meter := loss_meter st |} in
    match lr_lambda k with
    | Some factor =>
        ({| trace := trace st; opt_lr := learning_rate args * factor;
            last_epoch := k; loss_meter := loss_meter st |}, Ok tt)
    | None => (st', Raise ZeroDivisionError)
    end.

(** [LambdaLR(optimizer, lr_lambda)]: the counter starts at -1 and the
    constructor performs the initial step. *)
Definition make_scheduler : M unit :=
  fun st =>
    scheduler_step {| trace := trace st; opt_lr := opt_lr st;
                      last_epoch := (-1)%Z; loss_meter := loss_meter st |}.

(** [optimizer.step()]: the parameters move at the group's current rate. *)
Definition optimizer_step : M unit :=
  fun st => emit (EvOptimizerStep (opt_lr st)) st.

Definition set_loss_meter (m : AverageMeter) : M unit :=
  fun st => ({| trace := trace st; opt_lr := opt_lr st;
                last_epoch := last_epoch st; loss_meter := m |}, Ok tt).

(** [loss_meter.update(val, n)]. *)
Definition meter_update (v : R) (n : Z) : M unit :=
  fun st =>
    match update (loss_meter st) v n with
    | Some m => set_loss_meter m st
    | None => (st, Raise ZeroDivisionError)
    end.

(** The body of the inner loop (lines 148-158). *)
Definition train_batch (epoch : Z) (i : nat) : M unit :=
  x <- lift (view_pairs (batch_at w epoch i)) RuntimeError ;;
  let rep := model w epoch i x in
  loss <- lift (nt_xent rep (temperature args)) IndexError ;;
  optimizer_step ;;
  scheduler_step ;;
  meter_update loss (Z.of_nat (length x)).

(** The body of the outer loop (lines 145-164). *)
Definition train_epoch (epoch : Z) : M unit :=
  set_loss_meter (new_meter "SimCLR_loss") ;;
  for_each (seq 0 (len_train_loader w)) (train_batch epoch) ;;
  if (log_interval args <=? epoch)%Z then
    if (log_interval args =? 0)%Z then raise ZeroDivisionError
    else if (epoch mod log_interval args =? 0)%Z
         then emit (EvSaveCheckpoint (backbone args) epoch)
         else ret tt
  else ret tt.

Definition backbone_ok : bool :=
  if in_dec string_dec (backbone args) ["resnet18"%string; "resnet34"%string]
  then true else false.

(** [assert args.backbone in ['resnet18', 'resnet34']]. *)
Definition assert_backbone : M unit :=
  if backbone_ok then ret tt else raise AssertionError.

(** The statements of [train] in source order; printing, logging and
    device placement leave no trace. *)
Definition train : M unit :=
  emit (EvLoadDataset (data_dir args)) ;;        (* lines 105-108 *)
  emit (EvBuildLoader (batch_size args)) ;;      (* lines 110-114 *)
  assert_backbone ;;                             (* line 119 *)
  emit EvPretrainDisentangler ;;                 (* line 121 *)
  emit (EvBuildModel (backbone args)) ;;         (* line 122 *)
  make_optimizer ;;                              (* lines 126-131 *)
  make_scheduler ;;                              (* lines 134-140 *)
  for_each (range 1 (Z.to_nat (epochs args))) train_epoch.   (* line 144 *)

Definition initial_state : state :=
  {| trace := []; opt_lr := 0; last_epoch := (-1)%Z;
     loss_meter := new_meter "SimCLR_loss" |}.

Definition run : state * outcome unit := train initial_state.

End Train.

Arguments mkWorld {View}.
Arguments len_train_loader {View}.
Arguments batch_at {View}.
Arguments model {View}.
Arguments total_steps {View}.
Arguments lr_lambda {View}.
Arguments scheduler_step {View}.
Arguments make_scheduler {View}.
Arguments train_batch {View}.
Arguments train_epoch {View}.
Arguments train {View}.
Arguments run {View}.


(** * Notions used to state and prove the properties *)

(** ** The loss, entry by entry *)

(** Entry (i, j) of [x_scores] before the clamp: the dot product of the
    normalized rows i and j. *)
Definition score (x : matrix) (i j : nat) : R :=
  dot (normalize_row (nth i x [])) (normalize_row (nth j x [])).

(** Entry (i, j) of the logit matrix. *)
Definition logit (x : matrix) (t : R) (i j : nat) : R :=
  Rmax (score x i j) 1e-7 / t - (if Nat.eqb i j then 1 else 0) * 1e5.

Definition logit_row (x : matrix) (t : R) (i : nat) : vector :=
  map (logit x t i) (seq 0 (length x)).

(** The target of row i: its paired view. *)
Definition target_index (i : nat) : nat :=
  if Nat.even i then (i + 1)%nat else (i - 1)%nat.

(** The number [nt_xent] returns on a batch with an even number of rows. *)
Definition nt_xent_value (x : matrix) (t : R) : R :=
  mean (map (fun i => logsumexp (logit_row x t i) - logit x t i (target_index i))
            (seq 0 (length x))).

(** An n x n tensor given by its entries. *)
Definition table (n : nat) (f : nat -> nat -> R) : matrix :=
  map (fun i => map (f i) (seq 0 n)) (seq 0 n).

(** The loss of row i is the logarithm of this sum of exponentials of the
    logit differences to the target's logit. *)
Definition row_excess (x : matrix) (t : R) (i : nat) : R :=
  rsum (map (fun j => exp (logit x t i j - logit x t i (target_index i)))
            (seq 0 (length x))).

Definition sumsq (v : vector) : R := rsum (map (fun a => a * a) v).

(** ** The loss as the specification words it (section 4.1, steps 1-6) *)

(** Step 1, "L2-normalize each row": the row divided by its Euclidean
    norm, with the dot product and the norm of the textbook. *)
Fixpoint spec_dot (u v : vector) : R :=
  match u, v with
  | a :: u', b :: v' => a * b + spec_dot u' v'
  | _, _ => 0
  end.

Definition spec_norm (v : vector) : R := sqrt (spec_dot v v).

Definition spec_l2_normalize (v : vector) : vector :=
  map (fun a => a / spec_norm v) v.

(** Steps 2-4: pairwise dot products, clamped below at 1e-7, divided by t,
    with 1e5 subtracted on the diagonal. *)
Definition spec_logit (x : matrix) (t : R) (i j : nat) : R :=
  let rows := map spec_l2_normalize x in
  let s := Rmax (spec_dot (nth i rows []) (nth j rows [])) 1e-7 / t in
  if Nat.eqb i j then s - 1e5 else s.

(** Step 6: categorical cross-entropy of unnormalized logits against a
    class index, [- ln (softmax(row)[k])]. *)
Definition softmax_prob (row : vector) (k : nat) : R :=
  exp (nth k row 0) / rsum (map exp row).

Definition categorical_cross_entropy (row : vector) (k : nat) : R :=
  - ln (softmax_prob row k).

(** The mean over all rows, with the target of step 5. *)
Definition spec_nt_xent (x : matrix) (t : R) : R :=
  let n := length x in
  rsum (map (fun i => categorical_cross_entropy
                        (map (spec_logit x t i) (seq 0 n)) (target_index i))
            (seq 0 n)) / INR n.

(** ** Similarities, scaling and degenerate rows *)

Definition cosine_similarity (u v : vector) : R :=
  dot u v / (l2_norm u * l2_norm v).

Definition cos_sim (x : matrix) (i j : nat) : R :=
  cosine_similarity (nth i x []) (nth j x []).

(** Rows long enough for [F.normalize] to return unit vectors. *)
Definition nondegenerate (x : matrix) : Prop :=
  Forall (fun v => normalize_eps <= l2_norm v) x.

Definition unit_rows (x : matrix) : Prop := Forall (fun v => l2_norm v = 1) x.

(** [c * x] for a scalar [c]. *)
Definition scale_rows (c : R) (x : matrix) : matrix := map (map (Rmult c)) x.

(** A row whose normalization is unchanged by the factor [c]: a zero row, or
    a row that is at least [eps] long before and after scaling. *)
Definition scalable (c : R) (v : vector) : Prop :=
  l2_norm v = 0 \/ (normalize_eps <= l2_norm v /\ normalize_eps <= c * l2_norm v).

(** Rows inside the range in which the embedding is faithful to the float32
    tensors of the code: at least [eps] long, so that [F.normalize] divides
    by the norm, and at most [norm_max] long, so that the squared norm
    stays below the largest float32 (about 3.4e38). *)
Definition norm_max : R := 1e18.

Definition norm_in_range (v : vector) : Prop :=
  normalize_eps <= l2_norm v <= norm_max.

Definition rows_in_range (x : matrix) : Prop := Forall norm_in_range x.

(** A row that is zero, or in range both before and after scaling by [c]. *)
Definition scalable_in_range (c : R) (v : vector) : Prop :=
  l2_norm v = 0 \/
  (norm_in_range v /\ normalize_eps <= c * l2_norm v <= norm_max).

(** "The loss does not increase from [x] to [x'] when every paired-row
    cosine similarity goes up and every other one goes down." *)
Definition decreases_as_stated (x x' : matrix) (t : R) : Prop :=
  (forall i, (i < length x)%nat ->
     cos_sim x i (target_index i) <= cos_sim x' i (target_index i)) ->
  (forall i j, (i < length x)%nat -> (j < length x)%nat ->
     j <> i -> j <> target_index i -> cos_sim x' i j <= cos_sim x i j) ->
  exists v v', nt_xent x t = Some v /\ nt_xent x' t = Some v' /\ v' <= v.

(** From [x] to [x'] some paired similarity rises to a value above the
    clamp, or some other similarity falls from a value above the clamp. *)
Definition strictly_better (x x' : matrix) : Prop :=
  exists i, (i < length x)%nat /\
    ((cos_sim x i (target_index i) < cos_sim x' i (target_index i) /\
      1e-7 < cos_sim x' i (target_index i)) \/
     (exists j, (j < length x)%nat /\ j <> i /\ j <> target_index i /\
                cos_sim x' i j < cos_sim x i j /\ 1e-7 < cos_sim x i j)).

(** The value no batch of [n] non-degenerate rows goes below. *)
Definition nt_xent_floor (n : nat) (t : R) : R :=
  ln (1 + exp (- 1e5) + (INR n - 2) * exp ((1e-7 - 1) / t)).

(** ** The schedule *)

(** Section 8 of the specification on [get_lr]: both end points and
    monotonicity on [0, T]. *)
Definition cosine_schedule_spec (T lr_max lr_min : R) : Prop :=
  get_lr 0 T lr_max lr_min = Some lr_max /\
  get_lr T T lr_max lr_min = Some lr_min /\
  (forall s1 s2 : R, 0 <= s1 -> s1 <= s2 -> s2 <= T ->
     exists r1 r2, get_lr s1 T lr_max lr_min = Some r1 /\
                   get_lr s2 T lr_max lr_min = Some r2 /\ r2 <= r1).

(** The rate section 4.2 states for step [s], with [r_max] the configured
    learning rate, [r_min] 1e-3 and [T] epochs times batches per epoch. *)
Definition cosine_rate {View} (args : Config) (w : World View) (s : Z) : R :=
  1e-3 + (learning_rate args - 1e-3) * 0.5 *
         (1 + cos (IZR s / IZR (total_steps args w) * PI)).

(** The rate the optimizer holds after [s] steps. *)
Definition scaled_rate {View} (args : Config) (w : World View) (s : nat) : R :=
  learning_rate args * cosine_rate args w (Z.of_nat s).


(** "An invalid backbone fails by assertion before the dataset is loaded
    and before the disentangler is pretrained." *)
Definition fails_fast_as_stated {View} (args : Config) (w : World View) : Prop :=
  snd (run args w) = Raise AssertionError /\
  (forall dir, ~ In (EvLoadDataset dir) (trace (fst (run args w)))) /\
  ~ In EvPretrainDisentangler (trace (fst (run args w))).

(** ** Invariants of the training loop *)



(** The state in which the loop over the epochs is entered. *)
Definition loop_entry_state {View} (args : Config) (w : World View) : state :=
  {| trace := [EvLoadDataset (data_dir args); EvBuildLoader (batch_size args);
               EvPretrainDisentangler; EvBuildModel (backbone args)];
     opt_lr := learning_rate args * cosine_rate args w 0;
     last_epoch := 0%Z;
     loss_meter := new_meter "SimCLR_loss" |}.



(** ** The meter's totals *)

Definition total_count (calls : list (R * Z)) : Z :=
  fold_right Z.add 0%Z (map snd calls).

Definition total_sum (calls : list (R * Z)) : R :=
  rsum (map (fun c => fst c * IZR (snd c)) calls).

(** ** The two draws of [__getitem__] *)

Section Draws.

Variables Image View Rng : Type.
Variable transform : Image -> Rng -> View * Rng.

Definition first_view (img : Image) (g : Rng) : View := fst (transform img g).

(** The second call starts from the generator state the first one left. *)
Definition second_view (img : Image) (g : Rng) : View :=
  fst (transform img (snd (transform img g))).

Definition after_pair (img : Image) (g : Rng) : Rng :=
  snd (transform img (snd (transform img g))).

End Draws.

Arguments first_view {Image View Rng}.
Arguments second_view {Image View Rng}.
Arguments after_pair {Image View Rng}.

Definition valid_index {Array} (ds : CIFAR10 Array) (idx : nat) : Prop :=
  (idx < length (data ds))%nat /\ (idx < length (targets ds))%nat.

(** ** Concrete inputs *)

(** Two rows shorter than [eps] and two zero rows. *)
Definition tiny_batch : matrix := [[5e-13]; [5e-13]; [0]; [0]].

(** Two positive pairs: orthogonal to each other, and opposite. *)
Definition orthogonal_batch : matrix := [[1; 0]; [1; 0]; [0; 1]; [0; 1]].
Definition opposite_batch : matrix := [[1; 0]; [1; 0]; [-1; 0]; [-1; 0]].

Definition long_batch : matrix := [[3; 4]; [0; 0]].

(** A table of [np.cos] at the two arguments the end points of the
    schedule reach: 1 at 0 and -1 at [np.pi]. *)
Definition cos_at_end_points (a : float) : float :=
  if PrimFloat.eqb a 0 then 1%float else (-1)%float.

(** Two pairs of opposite rows, all shorter than [eps]. *)
Definition short_batch : matrix := [[5e-13]; [5e-13]; [-5e-13]; [-5e-13]].

(** Four equal rows: every similarity is 1. *)
Definition collapsed_batch : matrix := [[1; 0]; [1; 0]; [1; 0]; [1; 0]].

Definition demo_args (arch : string) : Config :=
  {| projection_dim := 128; data_dir := "data"; batch_size := 1; workers := 0;
     backbone := arch; learning_rate := 0.5; momentum := 0.9;
     weight_decay := 1e-6; epochs := 1; temperature := 0.5; log_interval := 1 |}.

(** One batch per epoch, holding one pair; every view is embedded as [1]. *)
Definition demo_world : World unit :=
  {| len_train_loader := 1;
     batch_at := fun _ _ => [[tt; tt]];
     model := fun _ _ x => map (fun _ => [1]) x |}.

(** A dataset of three images; an augmentation adds the generator's
    counter to the image and advances the counter. *)
Definition demo_dataset : CIFAR10 nat :=
  {| data := [10; 20; 30]%nat; targets := [0; 1; 2]%Z |}.

Definition demo_transform (img : nat) (g : nat) : nat * nat := ((img + g)%nat, S g).

(** * Notions for the further properties *)

(** The batch with the two views of every pair exchanged. *)
Definition swap_views (x : matrix) : matrix :=
  map (fun i => nth (target_index i) x []) (seq 0 (length x)).

(** Bounds of the loss on any batch of [n] rows. *)
Definition nt_xent_lower (n : nat) (t : R) : R :=
  ln (1 + exp ((1e-7 - 1) / t - 1e5) + (INR n - 2) * exp ((1e-7 - 1) / t)).

Definition nt_xent_upper (n : nat) (t : R) : R :=
  ln (1 + exp ((1 - 1e-7) / t - 1e5) + (INR n - 2) * exp ((1 - 1e-7) / t)).

(** What a run has done when the loop over the epochs is entered. *)
Definition setup_events (args : Config) : list event :=
  [EvLoadDataset (data_dir args); EvBuildLoader (batch_size args);
   EvPretrainDisentangler; EvBuildModel (backbone args)].

(** A batch the inner loop's body gets through: it is a non-empty stack of
    pairs and the loss of its embedding is defined. *)
Definition batch_ok {View} (args : Config) (w : World View) (e : Z) (i : nat) : Prop :=
  exists x loss,
    view_pairs (batch_at w e i) = Some x /\ x <> [] /\
    nt_xent (model w e i x) (temperature args) = Some loss.

(** The flattened batch and its loss (for batches that are [batch_ok]). *)
Definition batch_views {View} (w : World View) (e : Z) (i : nat) : list View :=
  match view_pairs (batch_at w e i) with Some x => x | None => [] end.

Definition batch_loss {View} (args : Config) (w : World View) (e : Z) (i : nat) : R :=
  match nt_xent (model w e i (batch_views w e i)) (temperature args) with
  | Some loss => loss
  | None => 0
  end.

(** The [update] calls the meter receives for the batches [idxs] of epoch
    [e]: the loss of each batch, weighted by its number of rows. *)
Definition batch_calls {View} (args : Config) (w : World View) (e : Z)
  (idxs : list nat) : list (R * Z) :=
  map (fun i => (batch_loss args w e i, Z.of_nat (length (batch_views w e i)))) idxs.

Definition epoch_calls {View} (args : Config) (w : World View) (e : Z) : list (R * Z) :=
  batch_calls args w e (seq 0 (len_train_loader w)).

(** [n] optimizer steps from step number [start] on. *)
Definition step_events {View} (args : Config) (w : World View) (start n : nat)
  : list event :=
  map (fun j => EvOptimizerStep (scaled_rate args w (start + j))) (seq 0 n).

(** The checkpoint written at the end of epoch [e], if any. *)
Definition checkpoint_events (args : Config) (e : Z) : list event :=
  if ((log_interval args <=? e)%Z && (e mod log_interval args =? 0)%Z)%bool
  then [EvSaveCheckpoint (backbone args) e] else [].

Fixpoint epochs_events {View} (args : Config) (w : World View) (start : nat)
  (eps : list Z) : list event :=
  match eps with
  | [] => []
  | e :: rest =>
      step_events args w start (len_train_loader w) ++ checkpoint_events args e
      ++ epochs_events args w (start + len_train_loader w) rest
  end.

(** The trace of a run that completes. *)
Definition expected_trace {View} (args : Config) (w : World View) : list event :=
  setup_events args ++ epochs_events args w 0 (range 1 (Z.to_nat (epochs args))).

(** The state with trace [tr] after [k] optimizer steps, the meter being [m]. *)
Definition point {View} (args : Config) (w : World View) (tr : list event) (k : nat)
  (m : AverageMeter) : state :=
  {| trace := tr; opt_lr := scaled_rate args w k; last_epoch := Z.of_nat k;
     loss_meter := m |}.

(** The labels of a batch of indices. *)
Definition labels_of {Array} (ds : CIFAR10 Array) (idxs : list nat) : list Z :=
  map (fun idx => nth idx (targets ds) 0%Z) idxs.

(** Two epochs on a valid backbone with a given log interval. *)
Definition demo_args_interval (interval : Z) : Config :=
  {| projection_dim := 128; data_dir := "data"; batch_size := 1; workers := 0;
     backbone := "resnet18"; learning_rate := 0.5; momentum := 0.9;
     weight_decay := 1e-6; epochs := 2; temperature := 0.5;
     log_interval := interval |}.

(** A loader that yields no batch. *)
Definition empty_world : World unit :=
  {| len_train_loader := 0;
     batch_at := fun _ _ => [];
     model := fun _ _ x => map (fun _ => [1]) x |}.

(** Three batches per epoch; the second one holds a single view instead
    of a pair. *)
Definition unpaired_world : World unit :=
  {| len_train_loader := 3;
     batch_at := fun _ i => if Nat.eqb i 1 then [[tt]] else [[tt; tt]];
     model := fun _ _ x => map (fun _ => [1]) x |}.

(** Three batches per epoch; for the second one the model returns a single
    embedding row. *)
Definition odd_second_world : World unit :=
  {| len_train_loader := 3;
     batch_at := fun _ _ => [[tt; tt]];
     model := fun _ i x => if Nat.eqb i 1 then [[1]] else map (fun _ => [1]) x |}.

(** * Properties *)

(** ** Lists *)

Lemma nth_map_seq {A} (f : nat -> A) (s n i : nat) (d : A) :
  (i < n)%nat -> nth i (map f (seq s n)) d = f (s + i)%nat.
Proof.
  intros Hi.
  rewrite (nth_indep _ d (f 0%nat)) by (now rewrite length_map, length_seq).
  now rewrite map_nth, seq_nth.
Qed.

Lemma map_seq_nth {A} (l : list A) (d : A) :
  l = map (fun i => nth i l d) (seq 0 (length l)).
Proof.
  apply nth_ext with (d := d) (d' := d).
  - now rewrite length_map, length_seq.
  - intros i Hi. now rewrite nth_map_seq.
Qed.

Lemma map_as_seq {A B} (f : A -> B) (l : list A) (d : A) :
  map f l = map (fun i => f (nth i l d)) (seq 0 (length l)).
Proof.
  rewrite (map_seq_nth l d) at 1. now rewrite map_map.
Qed.

Lemma combine_map_same {A B C} (f : A -> B) (g : A -> C) (l : list A) :
  combine (map f l) (map g l) = map (fun a => (f a, g a)) l.
Proof. induction l as [|a l IH]; cbn; [reflexivity|now rewrite IH]. Qed.

Lemma nth_Forall {A} (P : A -> Prop) (l : list A) (d : A) i :
  Forall P l -> (i < length l)%nat -> P (nth i l d).
Proof. intros H Hi. rewrite Forall_forall in H. apply H. now apply nth_In. Qed.

Lemma nth_error_valid {A} (l : list A) i :
  (i < length l)%nat -> exists a, nth_error l i = Some a.
Proof.
  intros H. destruct (nth_error l i) eqn:E; [eauto|].
  apply nth_error_None in E. lia.
Qed.

Lemma seq_nonempty n : (0 < n)%nat -> seq 0 n <> [].
Proof. destruct n; [lia|discriminate]. Qed.

(** ** Parity *)

Lemma even_mod2 i : Nat.even i = true -> (i mod 2 = 0)%nat.
Proof.
  intros E. apply Nat.even_spec in E. destruct E as [k ->].
  rewrite Nat.mul_comm. apply Nat.Div0.mod_mul.
Qed.

Lemma odd_mod2 i :
  Nat.even i = false ->
  (i mod 2 = 1)%nat /\ ((i - 1) mod 2 = 0)%nat /\ (1 <= i)%nat.
Proof.
  intros E.
  assert (O : Nat.odd i = true) by (rewrite <- Nat.negb_even, E; reflexivity).
  apply Nat.odd_spec in O. destruct O as [k ->]. repeat split.
  - rewrite Nat.add_comm, Nat.mul_comm, Nat.Div0.mod_add. reflexivity.
  - replace (2 * k + 1 - 1)%nat with (k * 2)%nat by lia. apply Nat.Div0.mod_mul.
  - lia.
Qed.

Lemma target_index_lt n i :
  Nat.Even n -> (i < n)%nat -> (target_index i < n)%nat.
Proof.
  intros [m ->] Hi. unfold target_index.
  destruct (Nat.even i) eqn:E.
  - apply Nat.even_spec in E. destruct E as [k ->]. lia.
  - lia.
Qed.

Lemma target_index_neq i : target_index i <> i.
Proof.
  unfold target_index. destruct (Nat.even i) eqn:E; [lia|].
  destruct (odd_mod2 i E) as (_ & _ & H). lia.
Qed.

(** ** The target tensor of [nt_xent] *)

Lemma nth_slice_iadd start step d l i :
  (i < length l)%nat ->
  nth i (slice_iadd start step d l) 0%Z =
  if (Nat.leb start i && Nat.eqb ((i - start) mod step) 0)%bool
  then (nth i l 0 + d)%Z else nth i l 0%Z.
Proof.
  intros Hi. unfold slice_iadd.
  set (f := fun p : nat * Z => _).
  rewrite (nth_indep _ 0%Z (f (0%nat, 0%Z))).
  2:{ rewrite length_map, length_combine, length_seq. lia. }
  rewrite map_nth, combine_nth by (rewrite length_seq; reflexivity).
  rewrite seq_nth by assumption. subst f. cbn [fst snd]. reflexivity.
Qed.

Lemma length_slice_iadd start step d l :
  length (slice_iadd start step d l) = length l.
Proof. unfold slice_iadd. rewrite length_map, length_combine, length_seq. lia. Qed.

Lemma length_arange n : length (arange n) = n.
Proof. unfold arange. now rewrite length_map, length_seq. Qed.

Lemma nth_arange n i : (i < n)%nat -> nth i (arange n) 0%Z = Z.of_nat i.
Proof. intros Hi. unfold arange. now rewrite nth_map_seq. Qed.

Lemma length_nt_xent_targets n : length (nt_xent_targets n) = n.
Proof. unfold nt_xent_targets. now rewrite !length_slice_iadd, length_arange. Qed.

Lemma nth_nt_xent_targets n i :
  (i < n)%nat ->
  nth i (nt_xent_targets n) 0%Z =
  if Nat.even i then (Z.of_nat i + 1)%Z else (Z.of_nat i - 1)%Z.
Proof.
  intros Hi. unfold nt_xent_targets.
  rewrite nth_slice_iadd by (now rewrite length_slice_iadd, length_arange).
  rewrite nth_slice_iadd by (now rewrite length_arange).
  rewrite nth_arange by assumption.
  rewrite Nat.sub_0_r.
  rewrite (proj2 (Nat.leb_le 0 i)) by lia.
  destruct (Nat.even i) eqn:E.
  - rewrite (even_mod2 i E).
    cbn [andb Nat.eqb].
    destruct (Nat.leb 1 i) eqn:L; cbn [andb]; [|reflexivity].
    apply Nat.leb_le in L.
    assert (H : ((i - 1) mod 2 = 1)%nat).
    { apply Nat.even_spec in E. destruct E as [k ->].
      replace (2 * k - 1)%nat with (1 + (k - 1) * 2)%nat by lia.
      rewrite Nat.Div0.mod_add. reflexivity. }
    rewrite H. cbn [Nat.eqb]. reflexivity.
  - destruct (odd_mod2 i E) as (H1 & H2 & H3).
    rewrite H1, H2. apply Nat.leb_le in H3. rewrite H3.
    cbn [andb Nat.eqb]. lia.
Qed.

Lemma nth_nt_xent_targets_index n i :
  (i < n)%nat -> nth i (nt_xent_targets n) 0%Z = Z.of_nat (target_index i).
Proof.
  intros Hi. rewrite nth_nt_xent_targets by assumption. unfold target_index.
  destruct (Nat.even i) eqn:E; [lia|].
  destruct (odd_mod2 i E) as (_ & _ & H). lia.
Qed.

Lemma length_normalize x : length (normalize x) = length x.
Proof. apply length_map. Qed.

Lemma nth_error_nt_xent_targets n i :
  (i < n)%nat ->
  nth_error (nt_xent_targets n) i =
  Some (if Nat.even i then (Z.of_nat i + 1)%Z else (Z.of_nat i - 1)%Z).
Proof.
  intros Hi. rewrite (nth_error_nth' _ 0%Z) by (now rewrite length_nt_xent_targets).
  now rewrite nth_nt_xent_targets.
Qed.

(** C2.  For a batch of 2N rows the target tensor [nt_xent] builds holds,
    at every row i, i+1 when i is even and i-1 when i is odd; in
    particular target(2k) = 2k+1 and target(2k+1) = 2k for every k < N. *)
Theorem nt_xent_target_assignment (x : matrix) (N : nat) :
  length x = (2 * N)%nat ->
  let targets := nt_xent_targets (length (normalize x)) in
  (forall i, (i < 2 * N)%nat ->
     nth_error targets i =
     Some (if Nat.even i then (Z.of_nat i + 1)%Z else (Z.of_nat i - 1)%Z)) /\
  (forall k, (k < N)%nat ->
     nth_error targets (2 * k) = Some (Z.of_nat (2 * k + 1)) /\
     nth_error targets (2 * k + 1) = Some (Z.of_nat (2 * k))).
Proof.
  intros Hlen targets. subst targets. rewrite length_normalize, Hlen. split.
  - intros i Hi. now apply nth_error_nt_xent_targets.
  - intros k Hk. split.
    + rewrite nth_error_nt_xent_targets by lia.
      replace (Nat.even (2 * k)) with true
        by (symmetry; apply Nat.even_spec; now exists k).
      f_equal. lia.
    + rewrite nth_error_nt_xent_targets by lia.
      replace (Nat.even (2 * k + 1)) with false.
      * f_equal. lia.
      * symmetry. rewrite <- Nat.negb_odd.
        replace (Nat.odd (2 * k + 1)) with true; [reflexivity|].
        symmetry. apply Nat.odd_spec. now exists k.
Qed.

Lemma nt_xent_target_assignment_witness :
  length orthogonal_batch = (2 * 2)%nat /\
  (1 < 2)%nat /\
  nth_error (nt_xent_targets (length (normalize orthogonal_batch))) (2 * 1) =
    Some (Z.of_nat (2 * 1 + 1)) /\
  nth_error (nt_xent_targets (length (normalize orthogonal_batch))) (2 * 1 + 1) =
    Some (Z.of_nat (2 * 1)).
Proof.
  split; [reflexivity|]. split; [lia|].
  apply (proj2 (nt_xent_target_assignment orthogonal_batch 2 eq_refl) 1%nat). lia.
Defined.

(** ** The cosine schedule *)

Lemma get_lr_some step T lr_max lr_min :
  T <> 0 ->
  get_lr step T lr_max lr_min =
  Some (lr_min + (lr_max - lr_min) * 0.5 * (1 + cos (step / T * PI))).
Proof.
  intros HT. unfold get_lr. destruct (Req_dec_T T 0); [contradiction|reflexivity].
Qed.

Lemma get_lr_none step lr_max lr_min : get_lr step 0 lr_max lr_min = None.
Proof. unfold get_lr. destruct (Req_dec_T 0 0); [reflexivity|contradiction]. Qed.

Lemma get_lr_start T lr_max lr_min :
  T <> 0 -> get_lr 0 T lr_max lr_min = Some lr_max.
Proof.
  intros HT. rewrite get_lr_some by assumption. f_equal.
  replace (0 / T * PI) with 0 by (unfold Rdiv; ring).
  rewrite cos_0. lra.
Qed.

Lemma get_lr_end T lr_max lr_min :
  T <> 0 -> get_lr T T lr_max lr_min = Some lr_min.
Proof.
  intros HT. rewrite get_lr_some by assumption. f_equal.
  replace (T / T * PI) with PI by (field; assumption).
  rewrite cos_PI. lra.
Qed.

Lemma schedule_angle_range s T :
  0 < T -> 0 <= s -> s <= T -> 0 <= s / T * PI <= PI.
Proof.
  intros HT H0 H1. pose proof PI_RGT_0 as HPI.
  assert (Hq : 0 <= s / T <= 1).
  { split.
    - apply Rmult_le_pos; [assumption|]. left. now apply Rinv_0_lt_compat.
    - apply (Rmult_le_reg_r T); [assumption|].
      replace (s / T * T) with s by (field; lra). lra. }
  split; nra.
Qed.

Lemma get_lr_antitone T lr_max lr_min s1 s2 :
  0 < T -> lr_min <= lr_max -> 0 <= s1 -> s1 <= s2 -> s2 <= T ->
  lr_min + (lr_max - lr_min) * 0.5 * (1 + cos (s2 / T * PI)) <=
  lr_min + (lr_max - lr_min) * 0.5 * (1 + cos (s1 / T * PI)).
Proof.
  intros HT Hlr H0 H12 H2.
  assert (Hc : cos (s2 / T * PI) <= cos (s1 / T * PI)).
  { destruct (schedule_angle_range s1 T) as [A1 B1]; try lra.
    destruct (schedule_angle_range s2 T) as [A2 B2]; try lra.
    apply cos_decr_1; try assumption.
    pose proof PI_RGT_0 as HPI.
    apply Rmult_le_compat_r; [lra|].
    apply Rmult_le_compat_r; [|assumption].
    left. now apply Rinv_0_lt_compat. }
  nra.
Qed.

(** With [lr_max] below [lr_min] the schedule rises: from 0 at step 0 to 1
    at step 1 for T = 1, lr_max = 0, lr_min = 1. *)
Lemma cosine_schedule_counterexample : ~ cosine_schedule_spec 1 0 1.
Proof.
  intros (_ & _ & H).
  destruct (H 0 1) as (r1 & r2 & E1 & E2 & Hle); try lra.
  rewrite get_lr_start in E1 by lra.
  rewrite get_lr_end in E2 by lra.
  injection E1 as <-. injection E2 as <-. lra.
Qed.

(** In double precision the value at step 0 is the rounded sum
    lr_min + (lr_max - lr_min), which can miss lr_max in the last bit:
    get_lr(0, 100, 0.01, 0.001) is 0.010000000000000002. *)
Lemma get_lr_binary64_start_rounds (np_cos : float -> float) :
  np_cos 0%float = 1%float ->
  get_lr_binary64 np_cos 0 100 0.01 0.001 = Some 0.010000000000000002%float /\
  get_lr_binary64 np_cos 0 100 0.01 0.001 <> Some 0.01%float.
Proof.
  intros H0.
  assert (E : get_lr_binary64 np_cos 0 100 0.01 0.001
              = Some 0.010000000000000002%float).
  { cbv. rewrite H0. reflexivity. }
  split; [exact E|]. rewrite E. intros H.
  apply (f_equal (fun o => match o with
                           | Some a => PrimFloat.eqb a 0.01
                           | None => true
                           end)) in H.
  cbv in H. discriminate.
Qed.

Lemma get_lr_binary64_examples (np_cos : float -> float) :
  np_cos 0%float = 1%float -> np_cos np_pi = (-1)%float ->
  get_lr_binary64 np_cos 0 100 0.1 0.001 = Some 0.1%float /\
  get_lr_binary64 np_cos 100 100 0.1 0.001 = Some 0.001%float.
Proof.
  intros H0 Hpi. cbv in Hpi. split; cbv; rewrite ?H0, ?Hpi; reflexivity.
Qed.

(** C4 (amended).  For T > 0 and lr_min <= lr_max, in real arithmetic
    (so, in the code, up to floating-point rounding) [get_lr] returns
    lr_max at step 0 and lr_min at step T, and is non-increasing in the
    step over [0, T].  The two examples, get_lr(0, 100, 0.1, 0.001) = 0.1
    and get_lr(100, 100, 0.1, 0.001) = 0.001, hold in real arithmetic and
    also bit for bit in double precision, where np.cos is 1 at 0 and -1
    at np.pi. *)
Theorem get_lr_cosine_schedule (T lr_max lr_min : R) :
  0 < T -> lr_min <= lr_max ->
  cosine_schedule_spec T lr_max lr_min /\
  get_lr 0 100 0.1 0.001 = Some 0.1 /\
  get_lr 100 100 0.1 0.001 = Some 0.001 /\
  (forall np_cos : float -> float,
     np_cos 0%float = 1%float -> np_cos np_pi = (-1)%float ->
     get_lr_binary64 np_cos 0 100 0.1 0.001 = Some 0.1%float /\
     get_lr_binary64 np_cos 100 100 0.1 0.001 = Some 0.001%float).
Proof.
  intros HT Hlr. split; [|split; [|split]].
  - split; [|split].
    + apply get_lr_start. lra.
    + apply get_lr_end. lra.
    + intros s1 s2 H0 H12 H2.
      exists (lr_min + (lr_max - lr_min) * 0.5 * (1 + cos (s1 / T * PI))),
             (lr_min + (lr_max - lr_min) * 0.5 * (1 + cos (s2 / T * PI))).
      repeat split; try (apply get_lr_some; lra).
      now apply get_lr_antitone.
  - apply get_lr_start. lra.
  - apply get_lr_end. lra.
  - apply get_lr_binary64_examples.
Qed.

Lemma get_lr_cosine_schedule_witness :
  0 < 100 /\ 0.001 <= 0.1 /\
  cos_at_end_points 0%float = 1%float /\ cos_at_end_points np_pi = (-1)%float /\
  cosine_schedule_spec 100 0.1 0.001 /\
  get_lr 0 100 0.1 0.001 = Some 0.1 /\
  get_lr 100 100 0.1 0.001 = Some 0.001 /\
  get_lr_binary64 cos_at_end_points 0 100 0.1 0.001 = Some 0.1%float /\
  get_lr_binary64 cos_at_end_points 100 100 0.1 0.001 = Some 0.001%float.
Proof.
  assert (HT : 0 < 100) by lra.
  assert (Hlr : 0.001 <= 0.1) by lra.
  destruct (get_lr_cosine_schedule 100 0.1 0.001 HT Hlr) as (Hs & H0 & H100 & Hf).
  destruct (Hf cos_at_end_points eq_refl eq_refl) as [Hf0 Hf100].
  split; [exact HT|]. split; [exact Hlr|].
  split; [reflexivity|]. split; [reflexivity|].
  split; [exact Hs|]. split; [exact H0|]. split; [exact H100|].
  split; [exact Hf0|exact Hf100].
Defined.

(** ** The running-average meter *)

Lemma updates_from (calls : list (R * Z)) :
  forall m,
    (0 <= count m)%Z ->
    Forall (fun c => (0 < snd c)%Z) calls ->
    exists m',
      updates m calls = Some m' /\
      count m' = (count m + total_count calls)%Z /\
      sum m' = sum m + total_sum calls /\
      (calls <> [] -> avg m' = sum m' / IZR (count m') /\ (0 < count m')%Z) /\
      (calls = [] -> m' = m).
Proof.
  induction calls as [|[v n] rest IH]; intros m Hc Hall.
  - exists m. cbn. repeat split; try lia; try lra; try congruence.
  - inversion Hall as [|? ? Hn Hrest]; subst. cbn [snd] in Hn.
    cbn [updates]. unfold update.
    destruct (Z.eqb_spec (count m + n) 0) as [E|E]; [lia|].
    set (m1 := {| name := name m; val := v;
                  avg := (sum m + v * IZR n) / IZR (count m + n);
                  sum := sum m + v * IZR n; count := (count m + n)%Z |}).
    destruct (IH m1) as (m' & Hu & Hcnt & Hsum & Havg & Hnil);
      [cbn; lia|assumption|].
    subst m1. cbn [count sum] in Hcnt, Hsum.
    exists m'. split; [exact Hu|].
    split; [rewrite Hcnt; unfold total_count; cbn [map fold_right snd]; lia|].
    split; [rewrite Hsum; unfold total_sum, rsum; cbn [map fold_right fst snd]; lra|].
    split; [|discriminate].
    intros _. destruct rest as [|c rest'].
    + rewrite (Hnil eq_refl). cbn [avg sum count]. split; [reflexivity|lia].
    + apply Havg. discriminate.
Qed.

(** C10.  After [reset] and any sequence of [update(val_i, n_i)] calls with
    every n_i > 0, no call has raised, [count] is the sum of the n_i, [sum]
    is the sum of the val_i * n_i, and [avg] is [sum / count] (with a
    positive count as soon as one call was made). *)
Theorem average_meter_invariant (m : AverageMeter) (calls : list (R * Z)) :
  Forall (fun c => (0 < snd c)%Z) calls ->
  exists m',
    updates (reset m) calls = Some m' /\
    count m' = total_count calls /\
    sum m' = total_sum calls /\
    avg m' = sum m' / IZR (count m') /\
    (calls <> [] -> (0 < count m')%Z).
Proof.
  intros Hall.
  destruct (updates_from calls (reset m)) as (m' & Hu & Hcnt & Hsum & Havg & Hnil);
    [cbn; lia|assumption|].
  exists m'. split; [exact Hu|]. cbn in Hcnt, Hsum.
  split; [lia|]. split; [lra|].
  destruct calls as [|c rest].
  - rewrite (Hnil eq_refl). cbn. split; [unfold Rdiv; ring|congruence].
  - destruct Havg as [Ha Hp]; [discriminate|]. split; [exact Ha|]. intros _. exact Hp.
Qed.

Lemma average_meter_invariant_witness :
  Forall (fun c => (0 < snd c)%Z) [(2, 3%Z); (4, 1%Z)] /\
  exists m',
    updates (reset (new_meter "SimCLR_loss")) [(2, 3%Z); (4, 1%Z)] = Some m' /\
    count m' = total_count [(2, 3%Z); (4, 1%Z)] /\
    sum m' = total_sum [(2, 3%Z); (4, 1%Z)] /\
    avg m' = sum m' / IZR (count m') /\
    ([(2, 3%Z); (4, 1%Z)] <> [] -> (0 < count m')%Z).
Proof.
  assert (H : Forall (fun c : R * Z => (0 < snd c)%Z) [(2, 3%Z); (4, 1%Z)]).
  { repeat constructor. }
  split; [exact H|].
  exact (average_meter_invariant (new_meter "SimCLR_loss") _ H).
Defined.

(** ** Sums, logarithms and means *)

Lemma ln_le x y : 0 < x -> x <= y -> ln x <= ln y.
Proof.
  intros Hx [Hlt | ->]; [left; now apply ln_increasing | right; reflexivity].
Qed.

Lemma exp_le a b : a <= b -> exp a <= exp b.
Proof. intros [H| ->]; [left; now apply exp_increasing|right; reflexivity]. Qed.

Lemma div_le_pos a b t : 0 < t -> a <= b -> a / t <= b / t.
Proof.
  intros Ht H. apply Rmult_le_compat_r; [|assumption].
  left. now apply Rinv_0_lt_compat.
Qed.

Lemma Rmax_mono a b c : a <= b -> Rmax a c <= Rmax b c.
Proof.
  intros H. apply Rmax_lub; [eapply Rle_trans; [exact H|apply Rmax_l]|apply Rmax_r].
Qed.

Lemma rsum_app (l1 l2 : list R) : rsum (l1 ++ l2) = rsum l1 + rsum l2.
Proof. unfold rsum. induction l1 as [|a l1 IH]; cbn; [lra|]. rewrite IH. lra. Qed.

Lemma rsum_nonneg {A} (f : A -> R) (l : list A) :
  (forall a, In a l -> 0 <= f a) -> 0 <= rsum (map f l).
Proof.
  intros H. induction l as [|a l IH]; cbn; [lra|].
  assert (0 <= f a) by (apply H; now left).
  assert (0 <= rsum (map f l)) by (apply IH; intros; apply H; now right).
  unfold rsum in *. lra.
Qed.

Lemma rsum_ge_term {A} (f : A -> R) (l : list A) (a : A) :
  (forall b, In b l -> 0 <= f b) -> In a l -> f a <= rsum (map f l).
Proof.
  intros H Ha. induction l as [|b l IH]; [contradiction|].
  cbn. assert (0 <= f b) by (apply H; now left).
  assert (0 <= rsum (map f l)) by (apply rsum_nonneg; intros; apply H; now right).
  destruct Ha as [-> | Ha].
  - unfold rsum in *. lra.
  - assert (f a <= rsum (map f l))
      by (apply IH; [intros; apply H; now right|assumption]).
    unfold rsum in *. lra.
Qed.

Lemma rsum_map_le {A} (f g : A -> R) (l : list A) :
  (forall a, In a l -> f a <= g a) -> rsum (map f l) <= rsum (map g l).
Proof.
  induction l as [|a l IH]; intros H; cbn; [lra|].
  assert (f a <= g a) by (apply H; now left).
  assert (rsum (map f l) <= rsum (map g l)) by (apply IH; intros; apply H; now right).
  unfold rsum in *. lra.
Qed.

Lemma rsum_map_scale {A} (f : A -> R) (c : R) (l : list A) :
  rsum (map (fun a => f a * c) l) = rsum (map f l) * c.
Proof.
  induction l as [|a l IH]; cbn; [lra|]. unfold rsum in *. rewrite IH. lra.
Qed.

Lemma rsum_map_plus {A} (f g : A -> R) (l : list A) :
  rsum (map (fun a => f a + g a) l) = rsum (map f l) + rsum (map g l).
Proof.
  unfold rsum. induction l as [|a l IH]; cbn; [lra|]. rewrite IH. lra.
Qed.

Lemma rsum_const {A} (l : list A) (e : R) :
  rsum (map (fun _ => e) l) = INR (length l) * e.
Proof.
  induction l as [|a l IH]; [cbn; lra|].
  cbn [map length]. rewrite S_INR. unfold rsum in *. cbn [fold_right].
  rewrite IH. lra.
Qed.

Lemma rsum_indicator (k n : nat) (c : R) :
  rsum (map (fun j => if Nat.eqb j k then c else 0) (seq 0 n)) =
  if (k <? n)%nat then c else 0.
Proof.
  induction n as [|n IH]; [reflexivity|].
  rewrite seq_S, map_app, rsum_app, IH. cbn [Nat.add map rsum fold_right].
  destruct (Nat.ltb_spec k n), (Nat.ltb_spec k (S n)), (Nat.eqb_spec n k);
    try lia; lra.
Qed.

(** A sum with two special positions [k] and [i]. *)
Lemma rsum_three_way (n i k : nat) (e1 e2 e : R) :
  (i < n)%nat -> (k < n)%nat -> i <> k ->
  rsum (map (fun j => if Nat.eqb j k then e1 else if Nat.eqb j i then e2 else e)
            (seq 0 n)) =
  e1 + e2 + (INR n - 2) * e.
Proof.
  intros Hi Hk Hik.
  assert (E : map (fun j => if Nat.eqb j k then e1 else if Nat.eqb j i then e2 else e)
                  (seq 0 n) =
              map (fun j => (e + (if Nat.eqb j k then e1 - e else 0)) +
                            (if Nat.eqb j i then e2 - e else 0)) (seq 0 n)).
  { apply map_ext. intros j.
    destruct (Nat.eqb_spec j k), (Nat.eqb_spec j i); try lra. lia. }
  rewrite E, !rsum_map_plus, rsum_const, !rsum_indicator, length_seq.
  apply Nat.ltb_lt in Hi, Hk. rewrite Hi, Hk. lra.
Qed.

Lemma rsum_exp_pos (row : vector) : row <> [] -> 0 < rsum (map exp row).
Proof.
  destruct row as [|a row]; [congruence|]. intros _.
  assert (0 <= rsum (map exp row)).
  { apply rsum_nonneg. intros b _. left. apply exp_pos. }
  cbn. generalize (exp_pos a). unfold rsum in *. lra.
Qed.

Lemma mean_nonneg (l : list R) : (forall a, In a l -> 0 <= a) -> 0 <= mean l.
Proof.
  intros H. unfold mean.
  assert (0 <= rsum l).
  { rewrite <- (map_id l). apply rsum_nonneg. exact H. }
  destruct l as [|a l].
  - cbn. unfold Rdiv. rewrite Rinv_0. lra.
  - apply Rmult_le_pos; [assumption|]. left. apply Rinv_0_lt_compat.
    apply lt_0_INR. cbn. lia.
Qed.

Lemma mean_map_le {A} (f g : A -> R) (l : list A) :
  (forall a, In a l -> f a <= g a) -> mean (map f l) <= mean (map g l).
Proof.
  intros H. unfold mean. rewrite !length_map.
  pose proof (rsum_map_le f g l H).
  destruct l as [|a l].
  - cbn. lra.
  - apply Rmult_le_compat_r; [|assumption]. left. apply Rinv_0_lt_compat.
    apply lt_0_INR. cbn. lia.
Qed.

Lemma mean_ge (l : list R) (m : R) :
  l <> [] -> (forall a, In a l -> m <= a) -> m <= mean l.
Proof.
  intros Hne H. unfold mean.
  assert (Hs : INR (length l) * m <= rsum l).
  { clear Hne. induction l as [|a l IH]; [cbn; lra|].
    cbn [length]. rewrite S_INR. unfold rsum in *. cbn [fold_right].
    assert (m <= a) by (apply H; now left).
    assert (INR (length l) * m <= fold_right Rplus 0 l)
      by (apply IH; intros; apply H; now right).
    lra. }
  assert (Hn : 0 < INR (length l)).
  { apply lt_0_INR. destruct l; [congruence|cbn; lia]. }
  apply (Rmult_le_reg_r (INR (length l))); [assumption|].
  replace (rsum l / INR (length l) * INR (length l)) with (rsum l) by (field; lra).
  lra.
Qed.

Lemma mean_const {A} (f : A -> R) (l : list A) (m : R) :
  l <> [] -> (forall a, In a l -> f a = m) -> mean (map f l) = m.
Proof.
  intros Hne H.
  assert (E : map f l = map (fun _ => m) l) by (now apply map_ext_in).
  rewrite E. unfold mean. rewrite rsum_const, length_map.
  assert (Hn : 0 < INR (length l)).
  { apply lt_0_INR. destruct l; [congruence|cbn; lia]. }
  field. lra.
Qed.

(** ** The logit matrix and the value of [nt_xent] *)

Lemma length_table n f : length (table n f) = n.
Proof. unfold table. now rewrite length_map, length_seq. Qed.

Lemma map_map_table (g : R -> R) n f :
  map (map g) (table n f) = table n (fun i j => g (f i j)).
Proof.
  unfold table. rewrite map_map. apply map_ext. intros i. now rewrite map_map.
Qed.

Lemma matmul_T_table (x : matrix) :
  matmul_T x x = table (length x) (fun i j => dot (nth i x []) (nth j x [])).
Proof.
  unfold matmul_T, table. rewrite (map_as_seq _ x []).
  apply map_ext. intros i. now rewrite (map_as_seq _ x []).
Qed.

Lemma mat_sub_table n f g :
  mat_sub (table n f) (table n g) = table n (fun i j => f i j - g i j).
Proof.
  unfold mat_sub, table. rewrite combine_map_same, map_map.
  apply map_ext. intros i. cbn [fst snd].
  now rewrite combine_map_same, map_map.
Qed.

Lemma eye_table n : eye n = table n (fun i j => if Nat.eqb i j then 1 else 0).
Proof. reflexivity. Qed.

Lemma nth_normalize x i : nth i (normalize x) [] = normalize_row (nth i x []).
Proof.
  unfold normalize. change (@nil R) with (normalize_row []) at 1. apply map_nth.
Qed.

Lemma nt_xent_logits_table x t :
  nt_xent_logits x t = table (length x) (logit x t).
Proof.
  unfold nt_xent_logits, mat_div, mat_scale, clamp_min.
  rewrite matmul_T_table, length_normalize, !map_map_table, length_table.
  rewrite eye_table, map_map_table, mat_sub_table.
  unfold table. apply map_ext. intros i. apply map_ext. intros j.
  unfold logit, score. now rewrite !nth_normalize.
Qed.

Lemma nth_log_softmax row k :
  (k < length row)%nat ->
  nth k (log_softmax row) 0 = nth k row 0 - logsumexp row.
Proof.
  intros Hk. unfold log_softmax.
  rewrite (nth_indep _ 0 (0 - logsumexp row)) by (now rewrite length_map).
  exact (map_nth (fun z => z - logsumexp row) row 0 k).
Qed.

(** The row-wise losses of a batch whose targets are all in range. *)
Lemma nll_rows_table (rowf : nat -> vector) (tgt : nat -> nat) (n : nat) :
  forall (target : list Z) (s : nat),
    length target = n ->
    (forall i, (i < n)%nat -> nth i target 0%Z = Z.of_nat (tgt (s + i)%nat)) ->
    (forall i, (i < n)%nat -> (tgt (s + i) < length (rowf (s + i)))%nat) ->
    nll_rows (map rowf (seq s n)) target =
    Some (map (fun i => logsumexp (rowf i) - nth (tgt i) (rowf i) 0) (seq s n)).
Proof.
  induction n as [|n IH]; intros target s Hlen Hnth Hin.
  - destruct target; [reflexivity|discriminate].
  - destruct target as [|t0 target]; [discriminate|].
    cbn [seq map nll_rows].
    assert (Ht0 : t0 = Z.of_nat (tgt s)).
    { specialize (Hnth 0%nat). cbn in Hnth. rewrite Nat.add_0_r in Hnth.
      apply Hnth. lia. }
    assert (Hs : (tgt s < length (rowf s))%nat).
    { specialize (Hin 0%nat). rewrite Nat.add_0_r in Hin. apply Hin. lia. }
    unfold nll_row. subst t0.
    replace (0 <=? Z.of_nat (tgt s))%Z with true by (symmetry; apply Z.leb_le; lia).
    replace (Z.of_nat (tgt s) <? Z.of_nat (length (rowf s)))%Z with true
      by (symmetry; apply Z.ltb_lt; lia).
    cbn [andb]. rewrite Nat2Z.id, nth_log_softmax by assumption.
    rewrite (IH target (S s)).
    + f_equal. f_equal. lra.
    + cbn in Hlen. lia.
    + intros i Hi. specialize (Hnth (S i)). cbn [nth] in Hnth.
      rewrite Hnth by lia. f_equal. f_equal. lia.
    + intros i Hi. specialize (Hin (S i)).
      replace (S s + i)%nat with (s + S i)%nat by lia. apply Hin. lia.
Qed.

Lemma length_logit_row x t i : length (logit_row x t i) = length x.
Proof. unfold logit_row. now rewrite length_map, length_seq. Qed.

Lemma nth_logit_row x t i j :
  (j < length x)%nat -> nth j (logit_row x t i) 0 = logit x t i j.
Proof. intros Hj. unfold logit_row. now rewrite nth_map_seq. Qed.

(** On an even number of rows [nt_xent] returns, and returns this value. *)
Lemma nt_xent_eq_value x t :
  Nat.Even (length x) -> nt_xent x t = Some (nt_xent_value x t).
Proof.
  intros Hev. unfold nt_xent, cross_entropy.
  rewrite nt_xent_logits_table, length_normalize.
  change (table (length x) (logit x t))
    with (map (logit_row x t) (seq 0 (length x))).
  rewrite (nll_rows_table (logit_row x t) target_index (length x)).
  - cbn [option_map]. unfold nt_xent_value. f_equal. f_equal.
    apply map_ext_in. intros i Hi. apply in_seq in Hi.
    rewrite nth_logit_row; [reflexivity|].
    apply target_index_lt; [assumption|lia].
  - apply length_nt_xent_targets.
  - intros i Hi. cbn [Nat.add]. now apply nth_nt_xent_targets_index.
  - intros i Hi. cbn [Nat.add]. rewrite length_logit_row.
    now apply target_index_lt.
Qed.

Lemma cross_entropy_textbook (row : vector) (k : nat) :
  row <> [] ->
  categorical_cross_entropy row k = logsumexp row - nth k row 0.
Proof.
  intros Hne. unfold categorical_cross_entropy, softmax_prob, logsumexp, Rdiv.
  pose proof (rsum_exp_pos row Hne) as Hpos.
  rewrite ln_mult; [|apply exp_pos|now apply Rinv_0_lt_compat].
  rewrite ln_exp, ln_Rinv by assumption. lra.
Qed.

(** The textbook's dot product and norm are the tensor operations'. *)
Lemma spec_dot_eq u v : spec_dot u v = dot u v.
Proof.
  unfold dot, rsum. revert v.
  induction u as [|a u IH]; intros [|b v]; cbn; try reflexivity.
  now rewrite IH.
Qed.

Lemma spec_norm_eq v : spec_norm v = l2_norm v.
Proof.
  unfold spec_norm, l2_norm. f_equal. rewrite spec_dot_eq. unfold dot, rsum.
  induction v as [|a v IH]; cbn; [reflexivity|]. now rewrite IH.
Qed.

(** On a row at least [eps] long, [F.normalize] divides by the norm. *)
Lemma spec_l2_normalize_eq v :
  normalize_eps <= l2_norm v -> spec_l2_normalize v = normalize_row v.
Proof.
  intros H. unfold spec_l2_normalize, normalize_row.
  now rewrite spec_norm_eq, Rmax_left.
Qed.

Lemma nth_spec_l2_normalize x i :
  nth i (map spec_l2_normalize x) [] = spec_l2_normalize (nth i x []).
Proof. change (@nil R) with (spec_l2_normalize []) at 1. apply map_nth. Qed.

Lemma rows_in_range_nondegenerate x : rows_in_range x -> nondegenerate x.
Proof.
  unfold rows_in_range, nondegenerate. apply Forall_impl. intros v [H _]. exact H.
Qed.

Lemma spec_logit_eq x t i j :
  nondegenerate x -> (i < length x)%nat -> (j < length x)%nat ->
  spec_logit x t i j = logit x t i j.
Proof.
  intros Hx Hi Hj. unfold spec_logit, logit, score. cbv zeta.
  rewrite !nth_spec_l2_normalize, spec_dot_eq.
  rewrite !spec_l2_normalize_eq
    by (now apply (nth_Forall (fun v => normalize_eps <= l2_norm v))).
  set (s := Rmax _ 1e-7) at 3. change (Rmax _ 1e-7) with s.
  destruct (Nat.eqb i j); lra.
Qed.

(** The mean of the specification on [x] is the value of the code on [y]
    wherever the two logit matrices agree. *)
Lemma spec_nt_xent_value x y t :
  length y = length x -> Nat.Even (length x) -> (0 < length x)%nat ->
  (forall i j, (i < length x)%nat -> (j < length x)%nat ->
               spec_logit x t i j = logit y t i j) ->
  spec_nt_xent x t = nt_xent_value y t.
Proof.
  intros Hlen Hev Hn Heq.
  unfold nt_xent_value, spec_nt_xent, mean. cbv zeta.
  rewrite length_map, length_seq, Hlen. f_equal. f_equal.
  apply map_ext_in. intros i Hi. apply in_seq in Hi.
  assert (Hrow : map (spec_logit x t i) (seq 0 (length x)) = logit_row y t i).
  { unfold logit_row. rewrite Hlen. apply map_ext_in. intros j Hj.
    apply in_seq in Hj. apply Heq; lia. }
  rewrite Hrow, cross_entropy_textbook.
  - rewrite nth_logit_row; [reflexivity|]. rewrite Hlen.
    apply target_index_lt; [assumption|lia].
  - intros E. apply (f_equal (@length R)) in E.
    rewrite length_logit_row, Hlen in E. cbn in E. lia.
Qed.

(** C1 (amended).  On a batch of 2N >= 2 rows whose L2 norms lie between
    1e-12 and 1e18, and for t > 0, [nt_xent] returns the mean over all rows
    i of the categorical cross-entropy between row i of the logit matrix
    and the target of row i, the logit matrix being: every row divided by
    its L2 norm, all pairwise dot products, clamped below at 1e-7, divided
    by t, with 1e5 subtracted on the diagonal. *)
Theorem nt_xent_refines_spec (x : matrix) (t : R) :
  Nat.Even (length x) -> (0 < length x)%nat -> 0 < t -> rows_in_range x ->
  nt_xent x t = Some (spec_nt_xent x t).
Proof.
  intros Hev Hn _ Hx. rewrite nt_xent_eq_value by assumption. f_equal. symmetry.
  apply spec_nt_xent_value; try assumption; [reflexivity|].
  intros i j Hi Hj. apply spec_logit_eq; try assumption.
  now apply rows_in_range_nondegenerate.
Qed.

(** ** Norms and normalization *)

Lemma sumsq_nonneg v : 0 <= sumsq v.
Proof.
  unfold sumsq, rsum. induction v as [|a v IH]; cbn; [lra|]. nra.
Qed.

Lemma sumsq_scale c v : sumsq (map (Rmult c) v) = c * c * sumsq v.
Proof.
  unfold sumsq, rsum. induction v as [|a v IH]; cbn; [lra|]. rewrite IH. lra.
Qed.

Lemma sumsq_zero v : sumsq v = 0 -> Forall (fun a => a = 0) v.
Proof.
  induction v as [|a v IH]; intros H; constructor.
  - unfold sumsq, rsum in H. cbn in H. pose proof (sumsq_nonneg v) as Hv.
    unfold sumsq, rsum in Hv. nra.
  - apply IH. unfold sumsq, rsum in *. cbn in H.
    pose proof (sumsq_nonneg v) as Hv. unfold sumsq, rsum in Hv. nra.
Qed.

Lemma l2_norm_sqr v : l2_norm v * l2_norm v = sumsq v.
Proof. unfold l2_norm. apply sqrt_sqrt. apply sumsq_nonneg. Qed.

Lemma l2_norm_scale c v : 0 <= c -> l2_norm (map (Rmult c) v) = c * l2_norm v.
Proof.
  intros Hc. unfold l2_norm. fold (sumsq (map (Rmult c) v)). fold (sumsq v).
  rewrite sumsq_scale, sqrt_mult_alt by nra.
  now rewrite sqrt_square.
Qed.

Lemma l2_norm_zero v : l2_norm v = 0 -> Forall (fun a => a = 0) v.
Proof.
  intros H. apply sumsq_zero. apply sqrt_eq_0; [apply sumsq_nonneg|exact H].
Qed.

Lemma l2_norm_singleton a : 0 <= a -> l2_norm [a] = a.
Proof.
  intros Ha. unfold l2_norm, rsum. cbn. rewrite Rplus_0_r. now apply sqrt_square.
Qed.

Lemma l2_norm_pair a b m : 0 <= m -> a * a + b * b = m * m -> l2_norm [a; b] = m.
Proof.
  intros Hm H. unfold l2_norm, rsum. cbn.
  replace (a * a + (b * b + 0)) with (m * m) by lra. now apply sqrt_square.
Qed.

Lemma dot_singleton a b : dot [a] [b] = a * b.
Proof. unfold dot, rsum. cbn. lra. Qed.

Lemma dot_pair a b c d : dot [a; b] [c; d] = a * c + b * d.
Proof. unfold dot, rsum. cbn. lra. Qed.

Lemma dot_self v : dot v v = sumsq v.
Proof.
  unfold dot, sumsq. induction v as [|a v IH]; cbn; [reflexivity|].
  unfold rsum in *. cbn. now rewrite IH.
Qed.

Lemma dot_map_div a b u v :
  dot (map (fun z => z / a) u) (map (fun z => z / b) v) = dot u v * (/ a * / b).
Proof.
  unfold dot, rsum. revert v. induction u as [|p u IH]; intros [|q v]; cbn; try lra.
  rewrite IH. unfold Rdiv. ring.
Qed.

Lemma dot_le_sumsq u v : 2 * dot u v <= sumsq u + sumsq v.
Proof.
  unfold dot, sumsq, rsum. revert v. induction u as [|a u IH]; intros [|b v]; cbn.
  - lra.
  - pose proof (sumsq_nonneg v) as H. unfold sumsq, rsum in H. nra.
  - pose proof (sumsq_nonneg u) as H. unfold sumsq, rsum in H. nra.
  - specialize (IH v). pose proof (Rle_0_sqr (a - b)) as Hab. unfold Rsqr in Hab.
    cbn [fst snd]. lra.
Qed.

Lemma normalize_eps_pos : 0 < normalize_eps.
Proof. unfold normalize_eps. lra. Qed.

Lemma normalize_row_unit v : l2_norm v = 1 -> normalize_row v = v.
Proof.
  intros H. unfold normalize_row. rewrite H.
  rewrite Rmax_left by (unfold normalize_eps; lra).
  rewrite <- (map_id v) at 2. apply map_ext. intros a. lra.
Qed.

Lemma normalize_row_tiny a :
  0 <= a <= normalize_eps -> normalize_row [a] = [a / normalize_eps].
Proof.
  intros Ha. unfold normalize_row. rewrite l2_norm_singleton by lra.
  rewrite Rmax_right by lra. reflexivity.
Qed.

Lemma sumsq_normalize_row v :
  normalize_eps <= l2_norm v -> sumsq (normalize_row v) = 1.
Proof.
  intros H. unfold normalize_row. rewrite Rmax_left by assumption.
  rewrite <- dot_self, dot_map_div, dot_self, <- l2_norm_sqr.
  pose proof normalize_eps_pos. field. lra.
Qed.

Lemma normalize_row_scale c v :
  0 < c -> scalable c v -> normalize_row (map (Rmult c) v) = normalize_row v.
Proof.
  intros Hc Hs. unfold normalize_row.
  rewrite l2_norm_scale by lra. rewrite map_map.
  destruct Hs as [Hz | [H1 H2]].
  - apply l2_norm_zero in Hz. rewrite Forall_forall in Hz.
    apply map_ext_in. intros a Ha. rewrite (Hz a Ha). unfold Rdiv. ring.
  - rewrite !Rmax_left by assumption.
    pose proof normalize_eps_pos.
    apply map_ext. intros a. field. split; lra.
Qed.

Lemma normalize_scale_rows c x :
  0 < c -> Forall (scalable c) x -> normalize (scale_rows c x) = normalize x.
Proof.
  intros Hc H. unfold normalize, scale_rows. rewrite map_map.
  apply map_ext_in. intros v Hv. apply normalize_row_scale; [assumption|].
  rewrite Forall_forall in H. now apply H.
Qed.

(** ** Scores *)

Lemma score_unit_rows x i j :
  unit_rows x -> (i < length x)%nat -> (j < length x)%nat ->
  score x i j = dot (nth i x []) (nth j x []).
Proof.
  intros Hu Hi Hj. unfold score.
  rewrite !normalize_row_unit; [reflexivity| |];
    now apply (nth_Forall (fun v => l2_norm v = 1)).
Qed.

Lemma score_cos_sim x i j :
  nondegenerate x -> (i < length x)%nat -> (j < length x)%nat ->
  score x i j = cos_sim x i j.
Proof.
  intros Hx Hi Hj. unfold score, cos_sim, cosine_similarity, normalize_row.
  pose proof (nth_Forall (fun v => normalize_eps <= l2_norm v) x [] i Hx Hi) as H1.
  pose proof (nth_Forall (fun v => normalize_eps <= l2_norm v) x [] j Hx Hj) as H2.
  cbv beta in H1, H2. rewrite !Rmax_left by assumption. rewrite dot_map_div.
  pose proof normalize_eps_pos as H. field.
  split; apply Rgt_not_eq, Rlt_gt; (eapply Rlt_le_trans; [exact H|]); assumption.
Qed.

Lemma score_diag x i :
  nondegenerate x -> (i < length x)%nat -> score x i i = 1.
Proof.
  intros Hx Hi. unfold score. rewrite dot_self. apply sumsq_normalize_row.
  now apply (nth_Forall (fun v => normalize_eps <= l2_norm v)).
Qed.

Lemma score_le_1 x i j :
  nondegenerate x -> (i < length x)%nat -> (j < length x)%nat -> score x i j <= 1.
Proof.
  intros Hx Hi Hj. unfold score.
  pose proof (dot_le_sumsq (normalize_row (nth i x [])) (normalize_row (nth j x [])))
    as H.
  rewrite !sumsq_normalize_row in H
    by (now apply (nth_Forall (fun v => normalize_eps <= l2_norm v))).
  lra.
Qed.

Lemma logit_diff x t i j k :
  logit x t i j - logit x t i k =
  (Rmax (score x i j) 1e-7 - Rmax (score x i k) 1e-7) / t
  - ((if Nat.eqb i j then 1 else 0) - (if Nat.eqb i k then 1 else 0)) * 1e5.
Proof. unfold logit, Rdiv. ring. Qed.

(** The value depends on the batch only through the clamped scores. *)
Lemma nt_xent_value_ext x x' t :
  length x' = length x -> Nat.Even (length x) ->
  (forall i j, (i < length x)%nat -> (j < length x)%nat ->
               Rmax (score x i j) 1e-7 = Rmax (score x' i j) 1e-7) ->
  nt_xent_value x t = nt_xent_value x' t.
Proof.
  intros Hlen Hev H. unfold nt_xent_value. rewrite Hlen. f_equal.
  apply map_ext_in. intros i Hi. apply in_seq in Hi.
  assert (Hl : forall j, (j < length x)%nat -> logit x t i j = logit x' t i j).
  { intros j Hj. unfold logit. rewrite H by lia. reflexivity. }
  assert (Hrow : logit_row x t i = logit_row x' t i).
  { unfold logit_row. rewrite Hlen. apply map_ext_in. intros j Hj.
    apply in_seq in Hj. apply Hl. lia. }
  rewrite Hrow. f_equal. apply Hl. apply target_index_lt; [assumption|lia].
Qed.

(** ** The clamp hides every similarity at or below 1e-7 *)

Tactic Notation "each_index" ident(i) :=
  destruct i as [|[|[|[|i]]]]; [ | | | |exfalso; cbn in *; lia].

Lemma unit_rows_orthogonal : unit_rows orthogonal_batch.
Proof.
  unfold unit_rows, orthogonal_batch.
  repeat constructor; apply l2_norm_pair; lra.
Qed.

Lemma unit_rows_opposite : unit_rows opposite_batch.
Proof.
  unfold unit_rows, opposite_batch.
  repeat constructor; apply l2_norm_pair; lra.
Qed.

Lemma dots_orthogonal_opposite i j :
  (i < length orthogonal_batch)%nat -> (j < length orthogonal_batch)%nat ->
  dot (nth i orthogonal_batch []) (nth j orthogonal_batch []) =
  dot (nth i opposite_batch []) (nth j opposite_batch []) \/
  (dot (nth i orthogonal_batch []) (nth j orthogonal_batch []) <= 1e-7 /\
   dot (nth i opposite_batch []) (nth j opposite_batch []) <= 1e-7).
Proof.
  intros Hi Hj. unfold orthogonal_batch, opposite_batch in *.
  each_index i; each_index j; cbn [nth]; rewrite !dot_pair;
    ((left; lra) || (right; lra)).
Qed.

(** C9.  For t > 0 and two batches of the same even number of unit rows
    whose pairwise dot products, position by position, either agree or are
    both at most 1e-7, [nt_xent] returns the same value. *)
Theorem nt_xent_blind_below_clamp (x x' : matrix) (t : R) :
  0 < t ->
  length x' = length x -> Nat.Even (length x) ->
  unit_rows x -> unit_rows x' ->
  (forall i j, (i < length x)%nat -> (j < length x)%nat ->
     dot (nth i x []) (nth j x []) = dot (nth i x' []) (nth j x' []) \/
     (dot (nth i x []) (nth j x []) <= 1e-7 /\
      dot (nth i x' []) (nth j x' []) <= 1e-7)) ->
  exists v, nt_xent x t = Some v /\ nt_xent x' t = Some v.
Proof.
  intros _ Hlen Hev Hu Hu' Hdots.
  exists (nt_xent_value x t). split; [now apply nt_xent_eq_value|].
  rewrite nt_xent_eq_value by (now rewrite Hlen). f_equal. symmetry.
  apply nt_xent_value_ext; try assumption.
  intros i j Hi Hj.
  rewrite (score_unit_rows x), (score_unit_rows x') by (assumption || lia).
  destruct (Hdots i j Hi Hj) as [-> | [H1 H2]]; [reflexivity|].
  now rewrite !Rmax_right.
Qed.

Lemma nt_xent_blind_below_clamp_witness :
  0 < 0.5 /\
  length opposite_batch = length orthogonal_batch /\
  Nat.Even (length orthogonal_batch) /\
  unit_rows orthogonal_batch /\ unit_rows opposite_batch /\
  dot (nth 0 orthogonal_batch []) (nth 2 orthogonal_batch []) = 0 /\
  dot (nth 0 opposite_batch []) (nth 2 opposite_batch []) = -1 /\
  exists v, nt_xent orthogonal_batch 0.5 = Some v /\
            nt_xent opposite_batch 0.5 = Some v.
Proof.
  assert (Ht : 0 < 0.5) by lra.
  assert (He : Nat.Even (length orthogonal_batch)) by (exists 2%nat; reflexivity).
  split; [exact Ht|]. split; [reflexivity|]. split; [exact He|].
  split; [exact unit_rows_orthogonal|]. split; [exact unit_rows_opposite|].
  split; [unfold orthogonal_batch; cbn [nth]; rewrite dot_pair; lra|].
  split; [unfold opposite_batch; cbn [nth]; rewrite dot_pair; lra|].
  exact (nt_xent_blind_below_clamp orthogonal_batch opposite_batch 0.5 Ht eq_refl He
           unit_rows_orthogonal unit_rows_opposite dots_orthogonal_opposite).
Defined.

(** ** Rescaling the rows *)

Lemma scalable_in_range_scalable c v : scalable_in_range c v -> scalable c v.
Proof.
  intros [H | [[H1 _] [H2 _]]]; [now left|right; now split].
Qed.

(** C7 (amended).  For 0 < c <= 1e30, t > 0 and a batch each of whose rows
    is zero or has an L2 norm between 1e-12 and 1e18 both before and after
    scaling by c, nt_xent(c * x, t) = nt_xent(x, t) in real arithmetic, so
    up to floating-point rounding in the code. *)
Theorem nt_xent_scale_invariant (x : matrix) (c t : R) :
  0 < c <= norm_max / normalize_eps -> 0 < t ->
  Forall (scalable_in_range c) x ->
  nt_xent (scale_rows c x) t = nt_xent x t.
Proof.
  intros [Hc _] _ H. unfold nt_xent, nt_xent_logits.
  rewrite normalize_scale_rows; [reflexivity|assumption|].
  revert H. apply Forall_impl. apply scalable_in_range_scalable.
Qed.

Lemma scalable_long_batch : Forall (scalable_in_range 2) long_batch.
Proof.
  unfold long_batch. constructor; [|constructor; [|constructor]].
  - right. unfold norm_in_range. rewrite (l2_norm_pair 3 4 5) by lra.
    unfold normalize_eps, norm_max. lra.
  - left. apply l2_norm_pair; lra.
Qed.

Lemma nt_xent_scale_invariant_witness :
  0 < 2 <= norm_max / normalize_eps /\ 0 < 0.5 /\
  Forall (scalable_in_range 2) long_batch /\
  nt_xent (scale_rows 2 long_batch) 0.5 = nt_xent long_batch 0.5.
Proof.
  assert (Hc : 0 < 2 <= norm_max / normalize_eps)
    by (unfold norm_max, normalize_eps; lra).
  assert (Ht : 0 < 0.5) by lra.
  split; [exact Hc|]. split; [exact Ht|]. split; [exact scalable_long_batch|].
  exact (nt_xent_scale_invariant long_batch 2 0.5 Hc Ht scalable_long_batch).
Defined.

(** The rows of [tiny_batch] are shorter than [eps], so [F.normalize]
    divides them by [eps] and their length survives: doubling the batch
    changes every score between the first two rows from 0.25 to 1. *)
Lemma score_tiny_batch i j :
  (i < 4)%nat -> (j < 4)%nat ->
  score tiny_batch i j =
  (if (i <? 2)%nat then 0.5 else 0) * (if (j <? 2)%nat then 0.5 else 0).
Proof.
  intros Hi Hj. unfold score, tiny_batch.
  each_index i; each_index j; cbn [nth];
    rewrite !normalize_row_tiny by (unfold normalize_eps; lra);
    rewrite dot_singleton; cbn [Nat.ltb Nat.leb]; unfold normalize_eps; lra.
Qed.

Lemma score_scaled_tiny_batch i j :
  (i < 4)%nat -> (j < 4)%nat ->
  score (scale_rows 2 tiny_batch) i j =
  (if (i <? 2)%nat then 1 else 0) * (if (j <? 2)%nat then 1 else 0).
Proof.
  intros Hi Hj. unfold score, tiny_batch, scale_rows.
  each_index i; each_index j; cbn [nth map];
    rewrite !normalize_row_tiny by (unfold normalize_eps; lra);
    rewrite dot_singleton; cbn [Nat.ltb Nat.leb]; unfold normalize_eps; lra.
Qed.

Lemma logit_tiny_batch i j :
  (i < 4)%nat -> (j < 4)%nat ->
  logit tiny_batch 0.5 i j =
  (if ((i <? 2)%nat && (j <? 2)%nat)%bool then 0.5 else 2e-7)
  - (if Nat.eqb i j then 1e5 else 0).
Proof.
  intros Hi Hj. unfold logit. rewrite score_tiny_batch by assumption.
  destruct (i <? 2)%nat, (j <? 2)%nat, (Nat.eqb i j); cbn [andb];
    (rewrite Rmax_left by lra) || (rewrite Rmax_right by lra); lra.
Qed.

Lemma logit_scaled_tiny_batch i j :
  (i < 4)%nat -> (j < 4)%nat ->
  logit (scale_rows 2 tiny_batch) 0.5 i j =
  (if ((i <? 2)%nat && (j <? 2)%nat)%bool then 2 else 2e-7)
  - (if Nat.eqb i j then 1e5 else 0).
Proof.
  intros Hi Hj. unfold logit. rewrite score_scaled_tiny_batch by assumption.
  destruct (i <? 2)%nat, (j <? 2)%nat, (Nat.eqb i j); cbn [andb];
    (rewrite Rmax_left by lra) || (rewrite Rmax_right by lra); lra.
Qed.

Ltac eval_tiny_loss logit_eq :=
  unfold nt_xent_value, mean, logit_row;
  cbn [length scale_rows tiny_batch seq map target_index Nat.even Nat.add Nat.sub];
  rewrite !logit_eq by lia;
  cbn [Nat.ltb Nat.leb Nat.eqb andb];
  unfold logsumexp, rsum; cbn [map fold_right];
  replace (INR 4) with 4 by (cbn; lra);
  f_equal;
  repeat match goal with
         | |- context [exp (?a - 0)] => replace (a - 0) with a by lra
         end;
  repeat match goal with
         | |- context [ln (?a + (?b + (?c + (?d + 0))))] =>
             replace (a + (b + (c + (d + 0)))) with (a + b + c + d) by lra
         end.

Lemma nt_xent_value_tiny_batch :
  nt_xent_value tiny_batch 0.5 =
  (2 * (ln (exp (0.5 - 1e5) + exp 0.5 + 2 * exp 2e-7) - 0.5) +
   2 * (ln (3 * exp 2e-7 + exp (2e-7 - 1e5)) - 2e-7)) / 4.
Proof.
  eval_tiny_loss logit_tiny_batch.
  replace (exp 0.5 + exp (0.5 - 1e5) + exp 2e-7 + exp 2e-7)
    with (exp (0.5 - 1e5) + exp 0.5 + 2 * exp 2e-7) by lra.
  replace (exp (0.5 - 1e5) + exp 0.5 + exp 2e-7 + exp 2e-7)
    with (exp (0.5 - 1e5) + exp 0.5 + 2 * exp 2e-7) by lra.
  replace (exp 2e-7 + exp 2e-7 + exp (2e-7 - 1e5) + exp 2e-7)
    with (3 * exp 2e-7 + exp (2e-7 - 1e5)) by lra.
  replace (exp 2e-7 + exp 2e-7 + exp 2e-7 + exp (2e-7 - 1e5))
    with (3 * exp 2e-7 + exp (2e-7 - 1e5)) by lra.
  lra.
Qed.

Lemma nt_xent_value_scaled_tiny_batch :
  nt_xent_value (scale_rows 2 tiny_batch) 0.5 =
  (2 * (ln (exp (2 - 1e5) + exp 2 + 2 * exp 2e-7) - 2) +
   2 * (ln (3 * exp 2e-7 + exp (2e-7 - 1e5)) - 2e-7)) / 4.
Proof.
  eval_tiny_loss logit_scaled_tiny_batch.
  replace (exp 2 + exp (2 - 1e5) + exp 2e-7 + exp 2e-7)
    with (exp (2 - 1e5) + exp 2 + 2 * exp 2e-7) by lra.
  replace (exp (2 - 1e5) + exp 2 + exp 2e-7 + exp 2e-7)
    with (exp (2 - 1e5) + exp 2 + 2 * exp 2e-7) by lra.
  replace (exp 2e-7 + exp 2e-7 + exp (2e-7 - 1e5) + exp 2e-7)
    with (3 * exp 2e-7 + exp (2e-7 - 1e5)) by lra.
  replace (exp 2e-7 + exp 2e-7 + exp 2e-7 + exp (2e-7 - 1e5))
    with (3 * exp 2e-7 + exp (2e-7 - 1e5)) by lra.
  lra.
Qed.

Lemma tiny_batch_loss_gap :
  ln (exp (2 - 1e5) + exp 2 + 2 * exp 2e-7) - 2 <
  ln (exp (0.5 - 1e5) + exp 0.5 + 2 * exp 2e-7) - 0.5.
Proof.
  set (A := exp (0.5 - 1e5) + exp 0.5 + 2 * exp 2e-7).
  set (B := exp (2 - 1e5) + exp 2 + 2 * exp 2e-7).
  assert (HA : 0 < A).
  { unfold A. generalize (exp_pos (0.5 - 1e5)), (exp_pos 0.5), (exp_pos 2e-7). lra. }
  assert (HB : 0 < B).
  { unfold B. generalize (exp_pos (2 - 1e5)), (exp_pos 2), (exp_pos 2e-7). lra. }
  assert (H15 : 1 < exp 1.5) by (rewrite <- exp_0; apply exp_increasing; lra).
  assert (HBA : B < A * exp 1.5).
  { unfold A, B. rewrite !Rmult_plus_distr_r, <- !exp_plus.
    replace (0.5 - 1e5 + 1.5) with (2 - 1e5) by lra.
    replace (0.5 + 1.5) with 2 by lra.
    generalize (exp_pos 2e-7). nra. }
  assert (Hln : ln B < ln (A * exp 1.5)) by (now apply ln_increasing).
  rewrite ln_mult, ln_exp in Hln by (assumption || apply exp_pos). lra.
Qed.

(** Doubling [tiny_batch] changes the loss at t = 0.5. *)
Lemma nt_xent_scale_counterexample :
  0 < 2 /\ 0 < 0.5 /\
  nt_xent (scale_rows 2 tiny_batch) 0.5 <> nt_xent tiny_batch 0.5.
Proof.
  split; [lra|]. split; [lra|].
  rewrite !nt_xent_eq_value by (exists 2%nat; reflexivity).
  rewrite nt_xent_value_tiny_batch, nt_xent_value_scaled_tiny_batch.
  intros H. injection H as H. pose proof tiny_batch_loss_gap. lra.
Qed.

(** ** Sign and monotonicity of the loss *)

Lemma row_loss_shift (f : nat -> R) (n k : nat) :
  (0 < n)%nat ->
  logsumexp (map f (seq 0 n)) - f k =
  ln (rsum (map (fun j => exp (f j - f k)) (seq 0 n))).
Proof.
  intros Hn. unfold logsumexp. rewrite map_map.
  assert (E : map (fun j => exp (f j - f k)) (seq 0 n) =
              map (fun j => exp (f j) * exp (- f k)) (seq 0 n)).
  { apply map_ext. intros j. rewrite <- exp_plus. f_equal. }
  rewrite E, rsum_map_scale.
  assert (Hpos : 0 < rsum (map (fun j => exp (f j)) (seq 0 n))).
  { rewrite <- map_map. apply rsum_exp_pos. destruct n; [lia|discriminate]. }
  rewrite ln_mult, ln_exp by (assumption || apply exp_pos). lra.
Qed.

Lemma nt_xent_value_excess x t :
  nt_xent_value x t = mean (map (fun i => ln (row_excess x t i)) (seq 0 (length x))).
Proof.
  unfold nt_xent_value. f_equal. apply map_ext_in. intros i Hi. apply in_seq in Hi.
  unfold logit_row, row_excess. apply (row_loss_shift (logit x t i)). lia.
Qed.

Lemma row_excess_ge_1 x t i :
  Nat.Even (length x) -> (i < length x)%nat -> 1 <= row_excess x t i.
Proof.
  intros Hev Hi. unfold row_excess.
  set (g := fun j => exp (logit x t i j - logit x t i (target_index i))).
  replace 1 with (g (target_index i)).
  - apply rsum_ge_term.
    + intros b _. unfold g. left. apply exp_pos.
    + apply in_seq. pose proof (target_index_lt _ _ Hev Hi). lia.
  - unfold g. rewrite Rminus_diag. apply exp_0.
Qed.

Lemma row_excess_pos x t i :
  Nat.Even (length x) -> (i < length x)%nat -> 0 < row_excess x t i.
Proof. intros Hev Hi. pose proof (row_excess_ge_1 x t i Hev Hi). lra. Qed.

Lemma nt_xent_value_nonneg x t : Nat.Even (length x) -> 0 <= nt_xent_value x t.
Proof.
  intros Hev. rewrite nt_xent_value_excess. apply mean_nonneg.
  intros a Ha. apply in_map_iff in Ha. destruct Ha as (i & <- & Hi).
  apply in_seq in Hi. rewrite <- ln_1. apply ln_le; [lra|].
  apply row_excess_ge_1; [assumption|lia].
Qed.

Lemma row_excess_mono x x' t i :
  0 < t -> length x' = length x -> Nat.Even (length x) ->
  nondegenerate x -> nondegenerate x' -> (i < length x)%nat ->
  score x i (target_index i) <= score x' i (target_index i) ->
  (forall j, (j < length x)%nat -> j <> i -> j <> target_index i ->
             score x' i j <= score x i j) ->
  row_excess x' t i <= row_excess x t i.
Proof.
  intros Ht Hlen Hev Hx Hx' Hi Hpos Hneg. unfold row_excess. rewrite Hlen.
  apply rsum_map_le. intros j Hj. apply in_seq in Hj.
  apply exp_le. rewrite !logit_diff.
  pose proof (Rmax_mono _ _ 1e-7 Hpos) as Hp.
  assert (Hj' : Rmax (score x' i j) 1e-7 <= Rmax (score x i j) 1e-7 \/
                j = target_index i).
  { destruct (Nat.eq_dec j (target_index i)) as [->|Hjk]; [now right|left].
    destruct (Nat.eq_dec j i) as [->|Hji].
    - rewrite !score_diag by (assumption || lia). lra.
    - apply Rmax_mono. apply Hneg; (lia || assumption). }
  assert (Hd : (Rmax (score x' i j) 1e-7
                - Rmax (score x' i (target_index i)) 1e-7) / t <=
               (Rmax (score x i j) 1e-7
                - Rmax (score x i (target_index i)) 1e-7) / t).
  { apply div_le_pos; [assumption|]. destruct Hj' as [Hj'| ->]; lra. }
  lra.
Qed.

Lemma nt_xent_value_mono x x' t :
  0 < t -> length x' = length x -> Nat.Even (length x) ->
  nondegenerate x -> nondegenerate x' ->
  (forall i, (i < length x)%nat ->
             score x i (target_index i) <= score x' i (target_index i)) ->
  (forall i j, (i < length x)%nat -> (j < length x)%nat ->
               j <> i -> j <> target_index i -> score x' i j <= score x i j) ->
  nt_xent_value x' t <= nt_xent_value x t.
Proof.
  intros Ht Hlen Hev Hx Hx' Hpos Hneg. rewrite !nt_xent_value_excess, Hlen.
  apply mean_map_le. intros i Hi. apply in_seq in Hi.
  apply ln_le.
  - apply row_excess_pos; [now rewrite Hlen|lia].
  - apply row_excess_mono; try assumption; try lia.
    + apply Hpos. lia.
    + intros j Hj. apply Hneg; lia.
Qed.

Lemma row_excess_floor x t i :
  0 < t -> Nat.Even (length x) -> nondegenerate x -> (i < length x)%nat ->
  1 + exp (- 1e5) + (INR (length x) - 2) * exp ((1e-7 - 1) / t) <= row_excess x t i.
Proof.
  intros Ht Hev Hx Hi.
  pose proof (target_index_lt _ _ Hev Hi) as Hk.
  pose proof (target_index_neq i) as Hik.
  rewrite <- (rsum_three_way (length x) i (target_index i)) by (assumption || lia).
  unfold row_excess. apply rsum_map_le. intros j Hj. apply in_seq in Hj.
  pose proof (score_le_1 x i (target_index i) Hx Hi Hk) as Hs.
  assert (Hck : Rmax (score x i (target_index i)) 1e-7 <= 1) by (apply Rmax_lub; lra).
  destruct (Nat.eqb_spec j (target_index i)) as [->|Hjk].
  - rewrite Rminus_diag, exp_0. lra.
  - rewrite logit_diff.
    replace (Nat.eqb i (target_index i)) with false
      by (symmetry; apply Nat.eqb_neq; lia).
    destruct (Nat.eqb_spec j i) as [->|Hji].
    + rewrite Nat.eqb_refl. apply exp_le.
      rewrite score_diag by assumption. rewrite (Rmax_left 1) by lra.
      assert (0 <= (1 - Rmax (score x i (target_index i)) 1e-7) / t).
      { apply Rmult_le_pos; [lra|]. left. now apply Rinv_0_lt_compat. }
      lra.
    + replace (Nat.eqb i j) with false by (symmetry; apply Nat.eqb_neq; lia).
      apply exp_le.
      assert ((1e-7 - 1) / t <=
              (Rmax (score x i j) 1e-7 - Rmax (score x i (target_index i)) 1e-7) / t).
      { apply div_le_pos; [assumption|].
        pose proof (Rmax_r (score x i j) 1e-7). lra. }
      lra.
Qed.

Lemma row_excess_extreme x t i :
  Nat.Even (length x) -> nondegenerate x -> (i < length x)%nat ->
  score x i (target_index i) = 1 ->
  (forall j, (j < length x)%nat -> j <> i -> j <> target_index i ->
             score x i j <= 1e-7) ->
  row_excess x t i =
  1 + exp (- 1e5) + (INR (length x) - 2) * exp ((1e-7 - 1) / t).
Proof.
  intros Hev Hx Hi Hpos Hneg.
  pose proof (target_index_lt _ _ Hev Hi) as Hk.
  pose proof (target_index_neq i) as Hik.
  rewrite <- (rsum_three_way (length x) i (target_index i)) by (assumption || lia).
  unfold row_excess. f_equal. apply map_ext_in. intros j Hj. apply in_seq in Hj.
  destruct (Nat.eqb_spec j (target_index i)) as [->|Hjk].
  - rewrite Rminus_diag. apply exp_0.
  - rewrite logit_diff, Hpos.
    replace (Nat.eqb i (target_index i)) with false
      by (symmetry; apply Nat.eqb_neq; lia).
    rewrite (Rmax_left 1) by lra.
    destruct (Nat.eqb_spec j i) as [->|Hji].
    + rewrite Nat.eqb_refl, score_diag by assumption.
      rewrite (Rmax_left 1) by lra. f_equal. unfold Rdiv. ring.
    + replace (Nat.eqb i j) with false by (symmetry; apply Nat.eqb_neq; lia).
      rewrite Rmax_right by (apply Hneg; lia). f_equal. lra.
Qed.

Lemma nt_xent_floor_arg_pos n t : (2 <= n)%nat ->
  0 < 1 + exp (- 1e5) + (INR n - 2) * exp ((1e-7 - 1) / t).
Proof.
  intros Hn. assert (2 <= INR n) by (apply (le_INR 2); lia).
  pose proof (exp_pos (- 1e5)). pose proof (exp_pos ((1e-7 - 1) / t)). nra.
Qed.

Lemma nt_xent_value_floor x t :
  0 < t -> Nat.Even (length x) -> (0 < length x)%nat -> nondegenerate x ->
  nt_xent_floor (length x) t <= nt_xent_value x t.
Proof.
  intros Ht Hev Hn Hx. rewrite nt_xent_value_excess. apply mean_ge.
  - intros E. apply (f_equal (@length R)) in E.
    rewrite length_map, length_seq in E. cbn in E. lia.
  - intros a Ha. apply in_map_iff in Ha. destruct Ha as (i & <- & Hi).
    apply in_seq in Hi. unfold nt_xent_floor.
    apply ln_le; [|apply row_excess_floor; (assumption || lia)].
    apply nt_xent_floor_arg_pos. destruct Hev as [m Hm]. lia.
Qed.

Lemma nt_xent_value_extreme x t :
  Nat.Even (length x) -> (0 < length x)%nat -> nondegenerate x ->
  (forall i, (i < length x)%nat -> score x i (target_index i) = 1) ->
  (forall i j, (i < length x)%nat -> (j < length x)%nat ->
               j <> i -> j <> target_index i -> score x i j <= 1e-7) ->
  nt_xent_value x t = nt_xent_floor (length x) t.
Proof.
  intros Hev Hn Hx Hpos Hneg. rewrite nt_xent_value_excess. apply mean_const.
  - now apply seq_nonempty.
  - intros i Hi. apply in_seq in Hi. unfold nt_xent_floor. f_equal.
    apply row_excess_extreme; try assumption; try lia.
    + apply Hpos. lia.
    + intros j Hj. apply Hneg; lia.
Qed.

(** *** Strict decrease *)

Lemma rsum_map_lt {A} (f g : A -> R) (l : list A) (a0 : A) :
  (forall a, In a l -> f a <= g a) -> In a0 l -> f a0 < g a0 ->
  rsum (map f l) < rsum (map g l).
Proof.
  induction l as [|a l IH]; intros Hle Hin Hlt; [contradiction|].
  cbn [map]. unfold rsum in *. cbn [fold_right].
  assert (Ha : f a <= g a) by (apply Hle; now left).
  assert (Hl : fold_right Rplus 0 (map f l) <= fold_right Rplus 0 (map g l)).
  { apply (rsum_map_le f g l). intros; apply Hle; now right. }
  destruct Hin as [-> | Hin]; [lra|].
  assert (fold_right Rplus 0 (map f l) < fold_right Rplus 0 (map g l)).
  { apply IH; [intros; apply Hle; now right|assumption|assumption]. }
  lra.
Qed.

Lemma mean_map_lt {A} (f g : A -> R) (l : list A) (a0 : A) :
  (forall a, In a l -> f a <= g a) -> In a0 l -> f a0 < g a0 ->
  mean (map f l) < mean (map g l).
Proof.
  intros Hle Hin Hlt. unfold mean. rewrite !length_map.
  pose proof (rsum_map_lt f g l a0 Hle Hin Hlt).
  apply Rmult_lt_compat_r; [|assumption]. apply Rinv_0_lt_compat.
  apply lt_0_INR. destruct l; [contradiction|cbn; lia].
Qed.

Lemma div_lt_pos a b t : 0 < t -> a < b -> a / t < b / t.
Proof.
  intros Ht H. apply Rmult_lt_compat_r; [|assumption]. now apply Rinv_0_lt_compat.
Qed.

Lemma row_excess_strict x x' t i :
  0 < t -> length x' = length x -> Nat.Even (length x) ->
  nondegenerate x -> nondegenerate x' -> (i < length x)%nat ->
  score x i (target_index i) <= score x' i (target_index i) ->
  (forall j, (j < length x)%nat -> j <> i -> j <> target_index i ->
             score x' i j <= score x i j) ->
  (score x i (target_index i) < score x' i (target_index i) /\
   1e-7 < score x' i (target_index i)) \/
  (exists j, (j < length x)%nat /\ j <> i /\ j <> target_index i /\
             score x' i j < score x i j /\ 1e-7 < score x i j) ->
  row_excess x' t i < row_excess x t i.
Proof.
  intros Ht Hlen Hev Hx Hx' Hi Hpos Hneg Hstrict.
  pose proof (target_index_lt _ _ Hev Hi) as Hk.
  pose proof (target_index_neq i) as Hik.
  pose proof (Rmax_mono _ _ 1e-7 Hpos) as Hp.
  assert (Hle : forall j, In j (seq 0 (length x)) ->
            exp (logit x' t i j - logit x' t i (target_index i)) <=
            exp (logit x t i j - logit x t i (target_index i))).
  { intros j Hj. apply in_seq in Hj. apply exp_le. rewrite !logit_diff.
    assert (Hj' : Rmax (score x' i j) 1e-7 <= Rmax (score x i j) 1e-7 \/
                  j = target_index i).
    { destruct (Nat.eq_dec j (target_index i)) as [->|Hjk]; [now right|left].
      destruct (Nat.eq_dec j i) as [->|Hji].
      - rewrite !score_diag by (assumption || lia). lra.
      - apply Rmax_mono. apply Hneg; (lia || assumption). }
    assert (Hd : (Rmax (score x' i j) 1e-7
                  - Rmax (score x' i (target_index i)) 1e-7) / t <=
                 (Rmax (score x i j) 1e-7
                  - Rmax (score x i (target_index i)) 1e-7) / t).
    { apply div_le_pos; [assumption|]. destruct Hj' as [Hj'| ->]; lra. }
    lra. }
  unfold row_excess. rewrite Hlen.
  destruct Hstrict as [[Hlt Hc] | (j & Hj & Hji & Hjk & Hlt & Hc)].
  - apply (rsum_map_lt _ _ _ i); [exact Hle|apply in_seq; lia|].
    apply exp_increasing. rewrite !logit_diff.
    rewrite !score_diag by (assumption || lia).
    assert (Hs : Rmax (score x i (target_index i)) 1e-7 <
                 Rmax (score x' i (target_index i)) 1e-7).
    { rewrite (Rmax_left (score x' i (target_index i))) by lra.
      apply Rmax_lub_lt; assumption. }
    assert (Hd : (Rmax 1 1e-7 - Rmax (score x' i (target_index i)) 1e-7) / t <
                 (Rmax 1 1e-7 - Rmax (score x i (target_index i)) 1e-7) / t).
    { apply div_lt_pos; [assumption|lra]. }
    lra.
  - apply (rsum_map_lt _ _ _ j); [exact Hle|apply in_seq; lia|].
    apply exp_increasing. rewrite !logit_diff.
    assert (Hs : Rmax (score x' i j) 1e-7 < Rmax (score x i j) 1e-7).
    { rewrite (Rmax_left (score x i j)) by lra. apply Rmax_lub_lt; assumption. }
    assert (Hd : (Rmax (score x' i j) 1e-7
                  - Rmax (score x' i (target_index i)) 1e-7) / t <
                 (Rmax (score x i j) 1e-7
                  - Rmax (score x i (target_index i)) 1e-7) / t).
    { apply div_lt_pos; [assumption|lra]. }
    lra.
Qed.

Lemma nt_xent_value_strict x x' t :
  0 < t -> length x' = length x -> Nat.Even (length x) ->
  nondegenerate x -> nondegenerate x' ->
  (forall i, (i < length x)%nat ->
             score x i (target_index i) <= score x' i (target_index i)) ->
  (forall i j, (i < length x)%nat -> (j < length x)%nat ->
               j <> i -> j <> target_index i -> score x' i j <= score x i j) ->
  (exists i, (i < length x)%nat /\
     ((score x i (target_index i) < score x' i (target_index i) /\
       1e-7 < score x' i (target_index i)) \/
      (exists j, (j < length x)%nat /\ j <> i /\ j <> target_index i /\
                 score x' i j < score x i j /\ 1e-7 < score x i j))) ->
  nt_xent_value x' t < nt_xent_value x t.
Proof.
  intros Ht Hlen Hev Hx Hx' Hpos Hneg (i & Hi & Hstrict).
  rewrite !nt_xent_value_excess, Hlen.
  apply (mean_map_lt _ _ _ i).
  - intros k Hk. apply in_seq in Hk. apply ln_le.
    + apply row_excess_pos; [now rewrite Hlen|lia].
    + apply row_excess_mono; try assumption; try lia.
      * apply Hpos. lia.
      * intros j Hj. apply Hneg; lia.
  - apply in_seq. lia.
  - apply ln_increasing.
    + apply row_excess_pos; [now rewrite Hlen|lia].
    + apply row_excess_strict; try assumption.
      * now apply Hpos.
      * intros j Hj. now apply Hneg.
Qed.

(** C6 (amended).  On every batch with an even number 2N >= 2 of rows and
    for every t > 0, [nt_xent] returns a non-negative value.  Between two
    such batches of the same size whose rows have L2 norms between 1e-12
    and 1e18, the value does not increase (in real arithmetic) when every
    paired-row cosine similarity goes up and every other one goes down,
    and it decreases strictly when one of these changes happens above the
    clamp at 1e-7.  No such batch goes below [nt_xent_floor], and the floor
    is the value once every paired similarity is 1 and every other one is
    at most 1e-7 (as -1 is). *)
Theorem nt_xent_nonneg_and_decreasing :
  (forall x t, Nat.Even (length x) -> (0 < length x)%nat -> 0 < t ->
     exists v, nt_xent x t = Some v /\ 0 <= v) /\
  (forall x x' t,
     0 < t -> length x' = length x -> Nat.Even (length x) -> (0 < length x)%nat ->
     rows_in_range x -> rows_in_range x' ->
     (forall i, (i < length x)%nat ->
        cos_sim x i (target_index i) <= cos_sim x' i (target_index i)) ->
     (forall i j, (i < length x)%nat -> (j < length x)%nat ->
        j <> i -> j <> target_index i -> cos_sim x' i j <= cos_sim x i j) ->
     exists v v', nt_xent x t = Some v /\ nt_xent x' t = Some v' /\ v' <= v /\
                  (strictly_better x x' -> v' < v)) /\
  (forall x t,
     0 < t -> Nat.Even (length x) -> (0 < length x)%nat -> rows_in_range x ->
     exists v, nt_xent x t = Some v /\ nt_xent_floor (length x) t <= v /\
       ((forall i, (i < length x)%nat -> cos_sim x i (target_index i) = 1) ->
        (forall i j, (i < length x)%nat -> (j < length x)%nat ->
           j <> i -> j <> target_index i -> cos_sim x i j <= 1e-7) ->
        v = nt_xent_floor (length x) t)).
Proof.
  split; [|split].
  - intros x t Hev _ _. exists (nt_xent_value x t).
    split; [now apply nt_xent_eq_value|now apply nt_xent_value_nonneg].
  - intros x x' t Ht Hlen Hev _ Hr Hr' Hpos Hneg.
    pose proof (rows_in_range_nondegenerate _ Hr) as Hx.
    pose proof (rows_in_range_nondegenerate _ Hr') as Hx'.
    assert (Hpos' : forall i, (i < length x)%nat ->
              score x i (target_index i) <= score x' i (target_index i)).
    { intros i Hi. pose proof (target_index_lt _ _ Hev Hi) as Hk.
      rewrite (score_cos_sim x), (score_cos_sim x') by (assumption || lia).
      now apply Hpos. }
    assert (Hneg' : forall i j, (i < length x)%nat -> (j < length x)%nat ->
              j <> i -> j <> target_index i -> score x' i j <= score x i j).
    { intros i j Hi Hj Hji Hjk.
      rewrite (score_cos_sim x), (score_cos_sim x') by (assumption || lia).
      now apply Hneg. }
    exists (nt_xent_value x t), (nt_xent_value x' t).
    split; [now apply nt_xent_eq_value|].
    split; [apply nt_xent_eq_value; now rewrite Hlen|].
    split; [now apply nt_xent_value_mono|].
    intros (i & Hi & Hs). apply nt_xent_value_strict; try assumption.
    exists i. split; [assumption|].
    pose proof (target_index_lt _ _ Hev Hi) as Hk.
    destruct Hs as [Hs | (j & Hj & Hji & Hjk & Hs)]; [left|right; exists j].
    + rewrite (score_cos_sim x), (score_cos_sim x') by (assumption || lia).
      exact Hs.
    + rewrite (score_cos_sim x), (score_cos_sim x') by (assumption || lia).
      repeat split; assumption || apply Hs.
  - intros x t Ht Hev Hn Hr.
    pose proof (rows_in_range_nondegenerate _ Hr) as Hx.
    exists (nt_xent_value x t).
    split; [now apply nt_xent_eq_value|].
    split; [now apply nt_xent_value_floor|].
    intros Hpos Hneg. apply nt_xent_value_extreme; try assumption.
    + intros i Hi. pose proof (target_index_lt _ _ Hev Hi) as Hk.
      rewrite score_cos_sim by assumption. now apply Hpos.
    + intros i j Hi Hj Hji Hjk. rewrite score_cos_sim by assumption.
      now apply Hneg.
Qed.

Lemma unit_rows_nondegenerate x : unit_rows x -> nondegenerate x.
Proof.
  unfold unit_rows, nondegenerate. apply Forall_impl.
  intros v ->. unfold normalize_eps. lra.
Qed.

Lemma unit_rows_in_range x : unit_rows x -> rows_in_range x.
Proof.
  unfold unit_rows, rows_in_range, norm_in_range. apply Forall_impl.
  intros v ->. unfold normalize_eps, norm_max. lra.
Qed.

Lemma cos_sim_unit_rows x i j :
  unit_rows x -> (i < length x)%nat -> (j < length x)%nat ->
  cos_sim x i j = dot (nth i x []) (nth j x []).
Proof.
  intros Hu Hi Hj.
  rewrite <- score_cos_sim by (try apply unit_rows_nondegenerate; assumption).
  now apply score_unit_rows.
Qed.

Lemma unit_rows_collapsed : unit_rows collapsed_batch.
Proof.
  unfold unit_rows, collapsed_batch.
  repeat constructor; apply l2_norm_pair; lra.
Qed.

Lemma cos_sim_collapsed i j :
  (i < length collapsed_batch)%nat -> (j < length collapsed_batch)%nat ->
  cos_sim collapsed_batch i j = 1.
Proof.
  intros Hi Hj. rewrite (cos_sim_unit_rows _ _ _ unit_rows_collapsed) by assumption.
  unfold collapsed_batch in *.
  each_index i; each_index j; cbn [nth]; rewrite dot_pair; lra.
Qed.

Lemma cos_sim_orthogonal i j :
  (i < length orthogonal_batch)%nat -> (j < length orthogonal_batch)%nat ->
  cos_sim orthogonal_batch i j = if Nat.eqb (i / 2) (j / 2) then 1 else 0.
Proof.
  intros Hi Hj. rewrite (cos_sim_unit_rows _ _ _ unit_rows_orthogonal) by assumption.
  unfold orthogonal_batch in *.
  each_index i; each_index j; cbn [nth]; rewrite dot_pair;
    cbn [Nat.div Nat.divmod fst Nat.eqb]; lra.
Qed.

Lemma cos_sim_paired_collapsed_orthogonal i :
  (i < length collapsed_batch)%nat ->
  cos_sim collapsed_batch i (target_index i) <=
  cos_sim orthogonal_batch i (target_index i).
Proof.
  intros Hi.
  assert (Hk : (target_index i < length collapsed_batch)%nat)
    by (apply target_index_lt; [exists 2%nat; reflexivity|assumption]).
  rewrite cos_sim_collapsed, cos_sim_orthogonal by assumption.
  cbn in Hi. each_index i; cbn; lra.
Qed.

Lemma cos_sim_others_collapsed_orthogonal i j :
  (i < length collapsed_batch)%nat -> (j < length collapsed_batch)%nat ->
  j <> i -> j <> target_index i ->
  cos_sim orthogonal_batch i j <= cos_sim collapsed_batch i j.
Proof.
  intros Hi Hj _ _. rewrite cos_sim_collapsed, cos_sim_orthogonal by assumption.
  destruct (Nat.eqb (i / 2) (j / 2)); lra.
Qed.

Lemma strictly_better_collapsed_orthogonal :
  strictly_better collapsed_batch orthogonal_batch.
Proof.
  exists 0%nat. split; [cbn; lia|]. right. exists 2%nat.
  split; [cbn; lia|]. split; [lia|]. split; [cbn; lia|].
  rewrite cos_sim_collapsed, cos_sim_orthogonal by (cbn; lia). cbn. lra.
Qed.

Lemma cos_sim_paired_opposite i :
  (i < length opposite_batch)%nat ->
  cos_sim opposite_batch i (target_index i) = 1.
Proof.
  intros Hi. each_index i; cbn [target_index Nat.even Nat.add Nat.sub];
    rewrite (cos_sim_unit_rows _ _ _ unit_rows_opposite) by (cbn; lia);
    unfold opposite_batch; cbn [nth]; rewrite !dot_pair; lra.
Qed.

Lemma cos_sim_others_opposite i j :
  (i < length opposite_batch)%nat -> (j < length opposite_batch)%nat ->
  j <> i -> j <> target_index i ->
  cos_sim opposite_batch i j <= 1e-7.
Proof.
  intros Hi Hj Hji Hjk.
  rewrite (cos_sim_unit_rows _ _ _ unit_rows_opposite) by assumption.
  unfold opposite_batch.
  each_index i; each_index j; cbn [target_index Nat.even Nat.add Nat.sub] in Hjk;
    try congruence; cbn [nth]; rewrite !dot_pair; lra.
Qed.

Lemma nt_xent_nonneg_and_decreasing_witness :
  0 < 0.5 /\ Nat.Even (length collapsed_batch) /\ (0 < length collapsed_batch)%nat /\
  rows_in_range collapsed_batch /\ rows_in_range orthogonal_batch /\
  rows_in_range opposite_batch /\
  cos_sim collapsed_batch 0 2 = 1 /\ cos_sim orthogonal_batch 0 2 = 0 /\
  (exists v, nt_xent collapsed_batch 0.5 = Some v /\ 0 <= v) /\
  (exists v v', nt_xent collapsed_batch 0.5 = Some v /\
                nt_xent orthogonal_batch 0.5 = Some v' /\ v' < v) /\
  (exists v, nt_xent opposite_batch 0.5 = Some v /\
             nt_xent_floor 4 0.5 <= v /\ v = nt_xent_floor 4 0.5).
Proof.
  assert (Ht : 0 < 0.5) by lra.
  assert (He : Nat.Even (length collapsed_batch)) by (exists 2%nat; reflexivity).
  assert (Hn : (0 < length collapsed_batch)%nat) by (cbn; lia).
  assert (He' : Nat.Even (length opposite_batch)) by (exists 2%nat; reflexivity).
  assert (Hn' : (0 < length opposite_batch)%nat) by (cbn; lia).
  pose proof (unit_rows_in_range _ unit_rows_collapsed) as Hc.
  pose proof (unit_rows_in_range _ unit_rows_orthogonal) as Ho.
  pose proof (unit_rows_in_range _ unit_rows_opposite) as Hp.
  destruct nt_xent_nonneg_and_decreasing as (Hsign & Hmono & Hfloor).
  split; [exact Ht|]. split; [exact He|]. split; [exact Hn|].
  split; [exact Hc|]. split; [exact Ho|]. split; [exact Hp|].
  split; [apply cos_sim_collapsed; cbn; lia|].
  split; [rewrite cos_sim_orthogonal by (cbn; lia); reflexivity|].
  split; [exact (Hsign collapsed_batch 0.5 He Hn Ht)|].
  split.
  - destruct (Hmono collapsed_batch orthogonal_batch 0.5 Ht eq_refl He Hn Hc Ho
                cos_sim_paired_collapsed_orthogonal cos_sim_others_collapsed_orthogonal)
      as (v & v' & Hv & Hv' & _ & Hlt).
    exists v, v'. split; [exact Hv|]. split; [exact Hv'|].
    exact (Hlt strictly_better_collapsed_orthogonal).
  - destruct (Hfloor opposite_batch 0.5 Ht He' Hn' Hp) as (v & Hv & Hle & Heq).
    exists v. split; [exact Hv|]. split; [exact Hle|].
    exact (Heq cos_sim_paired_opposite cos_sim_others_opposite).
Defined.

(** ** Rows shorter than [eps] *)

Lemma l2_norm_singleton_abs a : l2_norm [a] = Rabs a.
Proof.
  unfold l2_norm, rsum. cbn. rewrite Rplus_0_r. apply sqrt_Rsqr_abs.
Qed.

Lemma normalize_row_short a :
  Rabs a <= normalize_eps -> normalize_row [a] = [a / normalize_eps].
Proof.
  intros Ha. unfold normalize_row. rewrite l2_norm_singleton_abs.
  now rewrite Rmax_right.
Qed.

Lemma nth_scale_rows c x i :
  nth i (scale_rows c x) [] = map (Rmult c) (nth i x []).
Proof.
  unfold scale_rows. change (@nil R) with (map (Rmult c) []) at 1. apply map_nth.
Qed.

Lemma dot_scale c u v : dot (map (Rmult c) u) (map (Rmult c) v) = c * c * dot u v.
Proof.
  unfold dot, rsum. revert v.
  induction u as [|a u IH]; intros [|b v]; cbn; try lra.
  rewrite IH. ring.
Qed.

(** Cosine similarities do not see a positive factor. *)
Lemma cos_sim_scale_rows c x i j :
  0 < c -> cos_sim (scale_rows c x) i j = cos_sim x i j.
Proof.
  intros Hc. unfold cos_sim, cosine_similarity.
  rewrite !nth_scale_rows, dot_scale, !l2_norm_scale by lra.
  set (d := dot _ _). set (a := l2_norm _). set (b := l2_norm _).
  destruct (Req_dec (a * b) 0) as [E | E].
  - replace (c * a * (c * b)) with (c * c * (a * b)) by ring.
    rewrite E, Rmult_0_r. unfold Rdiv. rewrite Rinv_0. ring.
  - field. repeat split; try lra; intros E'; apply E; rewrite E'; ring.
Qed.

Lemma score_short_batch i j :
  (i < 4)%nat -> (j < 4)%nat ->
  score short_batch i j =
  (if (i <? 2)%nat then 0.5 else -0.5) * (if (j <? 2)%nat then 0.5 else -0.5).
Proof.
  intros Hi Hj. unfold score, short_batch.
  each_index i; each_index j; cbn [nth];
    rewrite !normalize_row_short by (apply Rabs_le; unfold normalize_eps; lra);
    rewrite dot_singleton; cbn [Nat.ltb Nat.leb]; unfold normalize_eps; lra.
Qed.

Lemma score_scaled_short_batch i j :
  (i < 4)%nat -> (j < 4)%nat ->
  score (scale_rows 2 short_batch) i j =
  (if (i <? 2)%nat then 1 else -1) * (if (j <? 2)%nat then 1 else -1).
Proof.
  intros Hi Hj. unfold score, short_batch, scale_rows.
  each_index i; each_index j; cbn [nth map];
    rewrite !normalize_row_short by (apply Rabs_le; unfold normalize_eps; lra);
    rewrite dot_singleton; cbn [Nat.ltb Nat.leb]; unfold normalize_eps; lra.
Qed.

(** The excess of a row whose paired and own scores are clamped to the same
    value [c] while all its other scores are at or below the clamp. *)
Lemma row_excess_two_level x t i c :
  Nat.Even (length x) -> (i < length x)%nat ->
  Rmax (score x i (target_index i)) 1e-7 = c ->
  Rmax (score x i i) 1e-7 = c ->
  (forall j, (j < length x)%nat -> j <> i -> j <> target_index i ->
             score x i j <= 1e-7) ->
  row_excess x t i =
  1 + exp (- 1e5) + (INR (length x) - 2) * exp ((1e-7 - c) / t).
Proof.
  intros Hev Hi Hpos Hdiag Hneg.
  pose proof (target_index_lt _ _ Hev Hi) as Hk.
  pose proof (target_index_neq i) as Hik.
  rewrite <- (rsum_three_way (length x) i (target_index i)) by (assumption || lia).
  unfold row_excess. f_equal. apply map_ext_in. intros j Hj. apply in_seq in Hj.
  destruct (Nat.eqb_spec j (target_index i)) as [->|Hjk].
  - rewrite Rminus_diag. apply exp_0.
  - rewrite logit_diff, Hpos.
    replace (Nat.eqb i (target_index i)) with false
      by (symmetry; apply Nat.eqb_neq; lia).
    destruct (Nat.eqb_spec j i) as [->|Hji].
    + rewrite Nat.eqb_refl, Hdiag. f_equal. unfold Rdiv. ring.
    + replace (Nat.eqb i j) with false by (symmetry; apply Nat.eqb_neq; lia).
      rewrite Rmax_right by (apply Hneg; lia). f_equal. lra.
Qed.

Lemma nt_xent_value_two_level x t c :
  Nat.Even (length x) -> (0 < length x)%nat ->
  (forall i, (i < length x)%nat -> Rmax (score x i (target_index i)) 1e-7 = c) ->
  (forall i, (i < length x)%nat -> Rmax (score x i i) 1e-7 = c) ->
  (forall i j, (i < length x)%nat -> (j < length x)%nat ->
               j <> i -> j <> target_index i -> score x i j <= 1e-7) ->
  nt_xent_value x t =
  ln (1 + exp (- 1e5) + (INR (length x) - 2) * exp ((1e-7 - c) / t)).
Proof.
  intros Hev Hn Hpos Hdiag Hneg. rewrite nt_xent_value_excess. apply mean_const.
  - now apply seq_nonempty.
  - intros i Hi. apply in_seq in Hi. f_equal.
    apply row_excess_two_level; try assumption; try lia.
    + apply Hpos. lia.
    + apply Hdiag. lia.
    + intros j Hj. apply Hneg; lia.
Qed.

(** [F.normalize] leaves the rows of [short_batch] at length 0.5: paired
    rows score 0.25 where unit vectors score 1. *)
Lemma nt_xent_value_short_batch :
  nt_xent_value short_batch 0.5 =
  ln (1 + exp (- 1e5) + 2 * exp ((1e-7 - 0.25) / 0.5)).
Proof.
  rewrite (nt_xent_value_two_level short_batch 0.5 0.25).
  - cbn [length short_batch INR]. do 2 f_equal. lra.
  - exists 2%nat. reflexivity.
  - cbn. lia.
  - intros i Hi. cbn [length short_batch] in Hi. rewrite score_short_batch.
    + each_index i; cbn; rewrite Rmax_left; lra.
    + exact Hi.
    + apply (target_index_lt 4); [exists 2%nat; reflexivity|exact Hi].
  - intros i Hi. cbn [length short_batch] in Hi.
    rewrite score_short_batch by assumption.
    each_index i; cbn; rewrite Rmax_left; lra.
  - intros i j Hi Hj Hji Hjk. cbn [length short_batch] in Hi, Hj.
    rewrite score_short_batch by assumption.
    each_index i; each_index j; cbn in Hjk; try congruence; cbn; lra.
Qed.

(** Doubled, the rows reach [eps] and are normalized to unit vectors. *)
Lemma nt_xent_value_scaled_short_batch :
  nt_xent_value (scale_rows 2 short_batch) 0.5 =
  ln (1 + exp (- 1e5) + 2 * exp ((1e-7 - 1) / 0.5)).
Proof.
  rewrite (nt_xent_value_two_level (scale_rows 2 short_batch) 0.5 1).
  - cbn [length scale_rows map short_batch INR]. do 2 f_equal. lra.
  - exists 2%nat. reflexivity.
  - cbn. lia.
  - intros i Hi. cbn [length scale_rows map short_batch] in Hi.
    rewrite score_scaled_short_batch.
    + each_index i; cbn; rewrite Rmax_left; lra.
    + exact Hi.
    + apply (target_index_lt 4); [exists 2%nat; reflexivity|exact Hi].
  - intros i Hi. cbn [length scale_rows map short_batch] in Hi.
    rewrite score_scaled_short_batch by assumption.
    each_index i; cbn; rewrite Rmax_left; lra.
  - intros i j Hi Hj Hji Hjk. cbn [length scale_rows map short_batch] in Hi, Hj.
    rewrite score_scaled_short_batch by assumption.
    each_index i; each_index j; cbn in Hjk; try congruence; cbn; lra.
Qed.

Lemma short_batch_loss_gap :
  ln (1 + exp (- 1e5) + 2 * exp ((1e-7 - 1) / 0.5)) <
  ln (1 + exp (- 1e5) + 2 * exp ((1e-7 - 0.25) / 0.5)).
Proof.
  assert (H : exp ((1e-7 - 1) / 0.5) < exp ((1e-7 - 0.25) / 0.5))
    by (apply exp_increasing; lra).
  pose proof (exp_pos (- 1e5)). pose proof (exp_pos ((1e-7 - 1) / 0.5)).
  apply ln_increasing; lra.
Qed.

(** The row-normalization of the specification turns the rows of
    [short_batch] into unit vectors. *)
Lemma spec_l2_normalize_singleton a :
  a <> 0 -> spec_l2_normalize [a] = [a / Rabs a].
Proof.
  intros _. unfold spec_l2_normalize.
  now rewrite spec_norm_eq, l2_norm_singleton_abs.
Qed.

Lemma spec_logit_short_batch i j :
  (i < 4)%nat -> (j < 4)%nat ->
  spec_logit short_batch 0.5 i j = logit (scale_rows 2 short_batch) 0.5 i j.
Proof.
  intros Hi Hj. unfold logit. rewrite score_scaled_short_batch by assumption.
  unfold spec_logit, short_batch. cbv zeta.
  assert (Hp : Rabs 5e-13 = 5e-13) by (apply Rabs_pos_eq; lra).
  assert (Hm : Rabs (-5e-13) = 5e-13) by (rewrite Rabs_left; lra).
  each_index i; each_index j; cbn [nth map];
    rewrite !spec_l2_normalize_singleton by lra; rewrite ?Hp, ?Hm;
    cbn [spec_dot Nat.eqb Nat.ltb Nat.leb];
    match goal with
    | |- context [Rmax ?a 1e-7 / 0.5] =>
        match goal with
        | |- context [Rmax ?b 1e-7 / 0.5 - _ * 1e5] =>
            replace a with b by (field; lra)
        end
    end; lra.
Qed.

Lemma spec_nt_xent_short_batch :
  spec_nt_xent short_batch 0.5 =
  ln (1 + exp (- 1e5) + 2 * exp ((1e-7 - 1) / 0.5)).
Proof.
  rewrite <- nt_xent_value_scaled_short_batch.
  apply spec_nt_xent_value.
  - reflexivity.
  - exists 2%nat. reflexivity.
  - cbn. lia.
  - intros i j Hi Hj. now apply spec_logit_short_batch.
Qed.

(** On [short_batch] the code does not return the mean the claim
    describes: the rows it uses are half as long as L2-normalized rows. *)
Lemma nt_xent_refinement_counterexample :
  Nat.Even (length short_batch) /\ 0 < 0.5 /\
  nt_xent short_batch 0.5 <> Some (spec_nt_xent short_batch 0.5).
Proof.
  split; [exists 2%nat; reflexivity|]. split; [lra|].
  rewrite nt_xent_eq_value by (exists 2%nat; reflexivity).
  rewrite nt_xent_value_short_batch, spec_nt_xent_short_batch.
  intros H. injection H as H. pose proof short_batch_loss_gap. lra.
Qed.

Lemma nt_xent_refines_spec_witness :
  Nat.Even (length orthogonal_batch) /\ (0 < length orthogonal_batch)%nat /\
  0 < 0.5 /\ rows_in_range orthogonal_batch /\
  nt_xent orthogonal_batch 0.5 = Some (spec_nt_xent orthogonal_batch 0.5).
Proof.
  assert (He : Nat.Even (length orthogonal_batch)) by (exists 2%nat; reflexivity).
  assert (Hn : (0 < length orthogonal_batch)%nat) by (cbn; lia).
  assert (Ht : 0 < 0.5) by lra.
  pose proof (unit_rows_in_range _ unit_rows_orthogonal) as Hr.
  split; [exact He|]. split; [exact Hn|]. split; [exact Ht|]. split; [exact Hr|].
  exact (nt_xent_refines_spec orthogonal_batch 0.5 He Hn Ht Hr).
Defined.

(** [short_batch] and its double have the same cosine similarities, yet
    the loss of [short_batch] is the larger one: below [eps] the loss is
    not a function of the cosine similarities. *)
Lemma nt_xent_decrease_counterexample :
  0 < 0.5 /\ Nat.Even (length (scale_rows 2 short_batch)) /\
  length short_batch = length (scale_rows 2 short_batch) /\
  ~ decreases_as_stated (scale_rows 2 short_batch) short_batch 0.5.
Proof.
  split; [lra|]. split; [exists 2%nat; reflexivity|]. split; [reflexivity|].
  intros H. destruct H as (v & v' & Hv & Hv' & Hle).
  - intros i _. rewrite cos_sim_scale_rows by lra. lra.
  - intros i j _ _ _ _. rewrite cos_sim_scale_rows by lra. lra.
  - rewrite nt_xent_eq_value in Hv, Hv' by (exists 2%nat; reflexivity).
    rewrite nt_xent_value_scaled_short_batch in Hv.
    rewrite nt_xent_value_short_batch in Hv'.
    injection Hv as <-. injection Hv' as <-.
    pose proof short_batch_loss_gap. lra.
Qed.

(** ** The training loop *)








Section TrainFacts.

Variable View : Type.
Variable args : Config.
Variable w : World View.

Lemma lr_lambda_some (k : Z) :
  total_steps args w <> 0%Z ->
  lr_lambda args w k = Some (cosine_rate args w k).
Proof.
  intros HT. unfold lr_lambda, cosine_rate.
  apply get_lr_some. intros E. apply eq_IZR_R0 in E. contradiction.
Qed.

Lemma lr_lambda_none (k : Z) :
  total_steps args w = 0%Z -> lr_lambda args w k = None.
Proof. intros HT. unfold lr_lambda. rewrite HT. apply get_lr_none. Qed.


(** *** The step-count invariant through the combinators *)










(** *** With a non-zero total number of steps *)

Hypothesis HT : total_steps args w <> 0%Z.






End TrainFacts.

Section RunFacts.

Variable View : Type.
Variable args : Config.
Variable w : World View.

Lemma backbone_ok_false :
  backbone args <> "resnet18"%string -> backbone args <> "resnet34"%string ->
  backbone_ok args = false.
Proof.
  intros H1 H2. unfold backbone_ok.
  destruct (in_dec string_dec (backbone args) ["resnet18"%string; "resnet34"%string])
    as [[E|[E|[]]]|_]; [| |reflexivity]; symmetry in E; contradiction.
Qed.

Lemma backbone_ok_true :
  backbone args = "resnet18"%string \/ backbone args = "resnet34"%string ->
  backbone_ok args = true.
Proof.
  intros H. unfold backbone_ok.
  destruct (in_dec string_dec (backbone args) ["resnet18"%string; "resnet34"%string])
    as [_|N]; [reflexivity|].
  exfalso. apply N. cbn. destruct H as [-> | ->]; auto.
Qed.

(** With an invalid backbone the run stops at the assertion, the dataset
    loaded and the loader built. *)
Lemma run_bad_backbone :
  backbone_ok args = false ->
  run args w =
  ({| trace := [EvLoadDataset (data_dir args); EvBuildLoader (batch_size args)];
      opt_lr := 0; last_epoch := (-1)%Z; loss_meter := new_meter "SimCLR_loss" |},
   Raise AssertionError).
Proof.
  intros H. unfold run, train, assert_backbone, bind, emit, initial_state.
  cbn [trace opt_lr last_epoch loss_meter app].
  rewrite H. reflexivity.
Qed.


Lemma run_enters_loop :
  backbone_ok args = true -> total_steps args w <> 0%Z ->
  run args w =
  for_each (range 1 (Z.to_nat (epochs args))) (train_epoch args w)
           (loop_entry_state args w).
Proof.
  intros H HT. unfold run, train, assert_backbone, bind, emit, initial_state.
  cbn [trace opt_lr last_epoch loss_meter app].
  rewrite H. unfold ret, make_optimizer, make_scheduler, scheduler_step.
  cbn [trace opt_lr last_epoch loss_meter Z.add].
  change (-1 + 1)%Z with 0%Z.
  rewrite lr_lambda_some by assumption. reflexivity.
Qed.





(** *** Runs that complete *)

Hypothesis Hsteps : total_steps args w <> 0%Z.
Hypothesis Hinterval : (0 < log_interval args)%Z.
Hypothesis Hbatches :
  forall epoch i, exists x loss,
    view_pairs (batch_at w epoch i) = Some x /\ x <> [] /\
    nt_xent (model w epoch i x) (temperature args) = Some loss.




End RunFacts.

(** *** The demonstration run: one epoch of one batch at learning rate 0.5 *)








(** With backbone "resnet50" the assertion fails only after the dataset
    was loaded. *)
Lemma fails_fast_counterexample :
  ~ fails_fast_as_stated (demo_args "resnet50") demo_world.
Proof.
  intros (_ & Hload & _). apply (Hload "data"%string).
  rewrite run_bad_backbone by (apply backbone_ok_false; discriminate).
  cbn. now left.
Qed.

(** C5 (amended).  If the configured backbone is neither resnet18 nor
    resnet34, the run fails with an assertion error after the dataset was
    loaded (downloaded) and the data loader built, and before anything
    else: no disentangler pretraining, no model, no optimizer step, no
    checkpoint. *)
Theorem invalid_backbone_fails_after_loading {View} (args : Config) (w : World View) :
  backbone args <> "resnet18"%string -> backbone args <> "resnet34"%string ->
  snd (run args w) = Raise AssertionError /\
  trace (fst (run args w)) =
    [EvLoadDataset (data_dir args); EvBuildLoader (batch_size args)].
Proof.
  intros H1 H2. rewrite run_bad_backbone by (now apply backbone_ok_false).
  split; reflexivity.
Qed.

Lemma invalid_backbone_fails_after_loading_witness :
  backbone (demo_args "resnet50") <> "resnet18"%string /\
  backbone (demo_args "resnet50") <> "resnet34"%string /\
  snd (run (demo_args "resnet50") demo_world) = Raise AssertionError /\
  trace (fst (run (demo_args "resnet50") demo_world)) =
    [EvLoadDataset "data"; EvBuildLoader 1].
Proof.
  assert (H1 : backbone (demo_args "resnet50") <> "resnet18"%string)
    by (cbn; discriminate).
  assert (H2 : backbone (demo_args "resnet50") <> "resnet34"%string)
    by (cbn; discriminate).
  split; [exact H1|]. split; [exact H2|].
  exact (invalid_backbone_fails_after_loading (demo_args "resnet50") demo_world H1 H2).
Defined.

(** ** Paired samples and the layout of a batch *)

Section PairedBatchFacts.

Variables Array Image View Rng : Type.
Variable fromarray : Array -> Image.
Variable transform : Image -> Rng -> View * Rng.

Lemma getitem_valid (ds : CIFAR10 Array) (idx : nat) (g : Rng) arr target :
  nth_error (data ds) idx = Some arr ->
  nth_error (targets ds) idx = Some target ->
  getitem fromarray transform ds idx g =
  Some (([first_view transform (fromarray arr) g;
          second_view transform (fromarray arr) g], target),
        after_pair transform (fromarray arr) g).
Proof.
  intros Hd Ht. unfold getitem, first_view, second_view, after_pair.
  rewrite Hd, Ht.
  destruct (transform (fromarray arr) g) as [v1 g1]. cbn [fst snd].
  destruct (transform (fromarray arr) g1) as [v2 g2]. reflexivity.
Qed.

Lemma fetch_layout (ds : CIFAR10 Array) (idxs : list nat) :
  Forall (valid_index ds) idxs ->
  forall g, exists items g' flat,
    fetch fromarray transform ds idxs g = Some (items, g') /\
    view_pairs (fst (collate items)) = Some flat /\
    length flat = (2 * length idxs)%nat /\
    forall k, (k < length idxs)%nat ->
      exists arr gk,
        nth_error (data ds) (nth k idxs 0%nat) = Some arr /\
        nth_error flat (2 * k) = Some (first_view transform (fromarray arr) gk) /\
        nth_error flat (2 * k + 1) =
          Some (second_view transform (fromarray arr) gk).
Proof.
  induction 1 as [|idx idxs [Hd Ht] Hrest IH]; intros g.
  - exists [], g, []. cbn. repeat split; try reflexivity. intros k Hk. lia.
  - destruct (nth_error_valid _ _ Hd) as (arr & Ea).
    destruct (nth_error_valid _ _ Ht) as (target & Et).
    destruct (IH (after_pair transform (fromarray arr) g))
      as (items & g' & flat & Hf & Hv & Hl & Hk).
    exists (([first_view transform (fromarray arr) g;
              second_view transform (fromarray arr) g], target) :: items),
           g',
           (first_view transform (fromarray arr) g
            :: second_view transform (fromarray arr) g :: flat).
    split; [|split; [|split]].
    + cbn [fetch]. rewrite (getitem_valid ds idx g arr target Ea Et), Hf.
      reflexivity.
    + unfold view_pairs, collate in *.
      cbn [fst map forallb length Nat.eqb andb concat app] in *.
      destruct (forallb _ (map fst items)); [|discriminate].
      injection Hv as <-. reflexivity.
    + cbn [length]. lia.
    + intros [|k] Hlt.
      * exists arr, g. cbn. repeat split; assumption || reflexivity.
      * cbn [length] in Hlt.
        destruct (Hk k ltac:(lia)) as (arr' & gk & H1 & H2 & H3).
        exists arr', gk. cbn [nth]. split; [assumption|].
        replace (2 * S k)%nat with (S (S (2 * k))) by lia.
        replace (S (S (2 * k)) + 1)%nat with (S (S (2 * k + 1))) by lia.
        cbn [nth_error]. split; assumption.
Qed.

(** C8.  For every valid dataset index, [__getitem__] returns the stack
    of exactly two views of the image at that index, the second drawn
    from the generator state the first draw left, together with the
    label; and for a batch of N valid indices, the flattened tensor has
    2N rows of which rows 2k and 2k+1 are the two views of the image at
    the k-th index of the batch, for every k < N. *)
Theorem paired_views_layout (ds : CIFAR10 Array) :
  (forall idx g, valid_index ds idx ->
     exists arr target,
       nth_error (data ds) idx = Some arr /\
       nth_error (targets ds) idx = Some target /\
       getitem fromarray transform ds idx g =
       Some (([first_view transform (fromarray arr) g;
               second_view transform (fromarray arr) g], target),
             after_pair transform (fromarray arr) g)) /\
  (forall idxs g, Forall (valid_index ds) idxs ->
     exists items g' flat,
       fetch fromarray transform ds idxs g = Some (items, g') /\
       view_pairs (fst (collate items)) = Some flat /\
       length flat = (2 * length idxs)%nat /\
       forall k, (k < length idxs)%nat ->
         exists arr gk,
           nth_error (data ds) (nth k idxs 0%nat) = Some arr /\
           nth_error flat (2 * k) =
             Some (first_view transform (fromarray arr) gk) /\
           nth_error flat (2 * k + 1) =
             Some (second_view transform (fromarray arr) gk)).
Proof.
  split.
  - intros idx g [Hd Ht].
    destruct (nth_error_valid _ _ Hd) as (arr & Ea).
    destruct (nth_error_valid _ _ Ht) as (target & Et).
    exists arr, target. split; [assumption|]. split; [assumption|].
    now apply getitem_valid.
  - intros idxs g H. now apply fetch_layout.
Qed.

End PairedBatchFacts.

Lemma demo_indices_valid : Forall (valid_index demo_dataset) [2; 0]%nat.
Proof. repeat constructor; cbn; lia. Qed.

Lemma paired_views_layout_witness :
  valid_index demo_dataset 2 /\
  Forall (valid_index demo_dataset) [2; 0]%nat /\
  getitem (fun a => a) demo_transform demo_dataset 2 5%nat =
    Some (([35; 36]%nat, 2%Z), 7%nat) /\
  exists items g' flat,
    fetch (fun a => a) demo_transform demo_dataset [2; 0]%nat 5%nat = Some (items, g') /\
    view_pairs (fst (collate items)) = Some flat /\
    length flat = 4%nat /\
    forall k, (k < 2)%nat ->
      exists arr gk,
        nth_error (data demo_dataset) (nth k [2; 0]%nat 0%nat) = Some arr /\
        nth_error flat (2 * k) = Some (first_view demo_transform arr gk) /\
        nth_error flat (2 * k + 1) = Some (second_view demo_transform arr gk).
Proof.
  assert (Hv : valid_index demo_dataset 2) by (split; cbn; lia).
  split; [exact Hv|]. split; [exact demo_indices_valid|].
  destruct (paired_views_layout nat nat nat nat (fun a => a) demo_transform demo_dataset)
    as [Hitem Hbatch].
  split.
  - destruct (Hitem 2%nat 5%nat Hv) as (arr & target & Ea & Et & Hg).
    cbn in Ea, Et. injection Ea as <-. injection Et as <-. exact Hg.
  - exact (Hbatch [2; 0]%nat 5%nat demo_indices_valid).
Defined.

(** * Further properties *)

(** ** [nt_xent]: odd batches, bounds, symmetry *)

Lemma nll_rows_in_range input :
  forall target l,
    nll_rows input target = Some l ->
    forall i, (i < length input)%nat ->
      (0 <= nth i target 0 < Z.of_nat (length (nth i input [])))%Z.
Proof.
  induction input as [|row input IH]; intros target l H i Hi; [cbn in Hi; lia|].
  destruct target as [|t0 target]; [discriminate|].
  cbn [nll_rows] in H.
  destruct (nll_row row t0) as [a|] eqn:Ea; [|discriminate].
  destruct (nll_rows input target) as [l'|] eqn:El; [|discriminate].
  destruct i as [|i]; cbn [nth].
  - unfold nll_row in Ea.
    destruct (0 <=? t0)%Z eqn:E1; [|discriminate].
    destruct (t0 <? Z.of_nat (length row))%Z eqn:E2; [|discriminate].
    apply Z.leb_le in E1. apply Z.ltb_lt in E2. lia.
  - apply (IH target l' El). cbn in Hi. lia.
Qed.

Lemma nth_table n f i j :
  (i < n)%nat -> (j < n)%nat -> nth j (nth i (table n f) []) 0 = f i j.
Proof.
  intros Hi Hj. unfold table.
  rewrite (nth_map_seq (fun i => map (f i) (seq 0 n)) 0 n i []) by assumption.
  now rewrite nth_map_seq.
Qed.

Lemma length_nth_table n f i : (i < n)%nat -> length (nth i (table n f) []) = n.
Proof.
  intros Hi. unfold table.
  rewrite (nth_map_seq (fun i => map (f i) (seq 0 n)) 0 n i []) by assumption.
  now rewrite length_map, length_seq.
Qed.

(** With an odd number of rows the last row's target is one past the last
    class. *)
Lemma nt_xent_odd_none (x : matrix) (t : R) :
  Nat.Odd (length x) -> nt_xent x t = None.
Proof.
  intros [m Hm]. unfold nt_xent, cross_entropy.
  destruct (nll_rows _ _) as [l|] eqn:E; [|reflexivity]. exfalso.
  rewrite nt_xent_logits_table, length_normalize in E.
  pose proof (nll_rows_in_range _ _ _ E (2 * m)%nat) as H.
  rewrite length_table in H. specialize (H ltac:(lia)).
  rewrite length_nth_table in H by lia.
  rewrite nth_nt_xent_targets_index in H by lia.
  unfold target_index in H.
  replace (Nat.even (2 * m)) with true in H
    by (symmetry; apply Nat.even_spec; now exists m).
  lia.
Qed.

(** X1.  On a batch with an odd number of rows [nt_xent] returns no value:
    the cross-entropy rejects the target of the last row, which is the
    row count itself. *)
Theorem nt_xent_odd_rows_fail (x : matrix) (t : R) :
  Nat.Odd (length x) -> nt_xent x t = None.
Proof. apply nt_xent_odd_none. Qed.

Lemma nt_xent_odd_rows_fail_witness :
  Nat.Odd (length [[1; 0]; [0; 1]; [1; 1]]) /\
  nt_xent [[1; 0]; [0; 1]; [1; 1]] 0.5 = None.
Proof.
  assert (H : Nat.Odd (length [[1; 0]; [0; 1]; [1; 1]])) by (exists 1%nat; reflexivity).
  split; [exact H|]. exact (nt_xent_odd_rows_fail _ 0.5 H).
Defined.

Lemma l2_norm_nonneg v : 0 <= l2_norm v.
Proof. unfold l2_norm. apply sqrt_pos. Qed.

(** A normalized row is never longer than 1. *)
Lemma sumsq_normalize_row_le v : sumsq (normalize_row v) <= 1.
Proof.
  unfold normalize_row.
  set (m := Rmax (l2_norm v) normalize_eps).
  assert (Hm : 0 < m).
  { unfold m. pose proof normalize_eps_pos.
    pose proof (Rmax_r (l2_norm v) normalize_eps). lra. }
  assert (Hn : l2_norm v <= m) by apply Rmax_l.
  rewrite <- dot_self, dot_map_div, dot_self, <- l2_norm_sqr.
  pose proof (l2_norm_nonneg v) as H0.
  assert (Hsq : l2_norm v * l2_norm v <= m * m) by nra.
  assert (Hi : 0 < / m * / m).
  { apply Rmult_lt_0_compat; now apply Rinv_0_lt_compat. }
  replace 1 with (m * m * (/ m * / m)) by (field; lra).
  apply Rmult_le_compat_r; lra.
Qed.

Lemma score_le_1_any x i j : score x i j <= 1.
Proof.
  unfold score.
  pose proof (dot_le_sumsq (normalize_row (nth i x [])) (normalize_row (nth j x []))).
  pose proof (sumsq_normalize_row_le (nth i x [])).
  pose proof (sumsq_normalize_row_le (nth j x [])). lra.
Qed.

Lemma clamped_score_range x i j :
  1e-7 <= Rmax (score x i j) 1e-7 <= 1.
Proof.
  split; [apply Rmax_r|]. apply Rmax_lub; [apply score_le_1_any|lra].
Qed.

(** X3.  For t > 0 with 1e5 * t > 1 - 1e-7, in every row of the logit
    matrix the diagonal entry is strictly below every other entry: the
    offset 1e5 outweighs the whole range of the scaled scores. *)
Theorem nt_xent_self_logit_lowest (x : matrix) (t : R) (i j : nat) :
  0 < t -> 1 - 1e-7 < 1e5 * t ->
  (i < length x)%nat -> (j < length x)%nat -> j <> i ->
  nth i (nth i (nt_xent_logits x t) []) 0 < nth j (nth i (nt_xent_logits x t) []) 0.
Proof.
  intros Ht Hbig Hi Hj Hji.
  rewrite nt_xent_logits_table, !nth_table by assumption.
  unfold logit. rewrite Nat.eqb_refl.
  replace (Nat.eqb i j) with false by (symmetry; apply Nat.eqb_neq; lia).
  pose proof (clamped_score_range x i i) as [_ H1].
  pose proof (clamped_score_range x i j) as [H2 _].
  assert (Hd : (Rmax (score x i i) 1e-7 - Rmax (score x i j) 1e-7) / t
               <= (1 - 1e-7) / t).
  { apply div_le_pos; [assumption|lra]. }
  assert (Hk : (1 - 1e-7) / t < 1e5).
  { apply (Rmult_lt_reg_r t); [assumption|].
    replace ((1 - 1e-7) / t * t) with (1 - 1e-7) by (field; lra). lra. }
  unfold Rdiv in *. lra.
Qed.

Lemma nt_xent_self_logit_lowest_witness :
  0 < 0.5 /\ 1 - 1e-7 < 1e5 * 0.5 /\
  (0 < length orthogonal_batch)%nat /\ (1 < length orthogonal_batch)%nat /\
  1%nat <> 0%nat /\
  nth 0 (nth 0 (nt_xent_logits orthogonal_batch 0.5) []) 0 <
  nth 1 (nth 0 (nt_xent_logits orthogonal_batch 0.5) []) 0.
Proof.
  assert (H1 : 0 < 0.5) by lra.
  assert (H2 : 1 - 1e-7 < 1e5 * 0.5) by lra.
  assert (H3 : (0 < length orthogonal_batch)%nat) by (cbn; lia).
  assert (H4 : (1 < length orthogonal_batch)%nat) by (cbn; lia).
  assert (H5 : 1%nat <> 0%nat) by lia.
  repeat (split; [assumption|]).
  exact (nt_xent_self_logit_lowest orthogonal_batch 0.5 0 1 H1 H2 H3 H4 H5).
Defined.

Lemma mean_le (l : list R) (m : R) :
  l <> [] -> (forall a, In a l -> a <= m) -> mean l <= m.
Proof.
  intros Hne H. unfold mean.
  assert (Hs : rsum l <= INR (length l) * m).
  { clear Hne. induction l as [|a l IH]; [cbn; lra|].
    cbn [length]. rewrite S_INR. unfold rsum in *. cbn [fold_right].
    assert (a <= m) by (apply H; now left).
    assert (fold_right Rplus 0 l <= INR (length l) * m)
      by (apply IH; intros; apply H; now right).
    lra. }
  assert (Hn : 0 < INR (length l)).
  { apply lt_0_INR. destruct l; [congruence|cbn; lia]. }
  apply (Rmult_le_reg_r (INR (length l))); [assumption|].
  replace (rsum l / INR (length l) * INR (length l)) with (rsum l) by (field; lra).
  lra.
Qed.

Lemma row_excess_range x t i :
  0 < t -> Nat.Even (length x) -> (i < length x)%nat ->
  1 + exp ((1e-7 - 1) / t - 1e5) + (INR (length x) - 2) * exp ((1e-7 - 1) / t)
    <= row_excess x t i <=
  1 + exp ((1 - 1e-7) / t - 1e5) + (INR (length x) - 2) * exp ((1 - 1e-7) / t).
Proof.
  intros Ht Hev Hi.
  pose proof (target_index_lt _ _ Hev Hi) as Hk.
  pose proof (target_index_neq i) as Hik.
  rewrite <- !(rsum_three_way (length x) i (target_index i)) by (assumption || lia).
  unfold row_excess.
  assert (Hterm : forall j, (j < length x)%nat ->
    (if Nat.eqb j (target_index i) then 1
     else if Nat.eqb j i then exp ((1e-7 - 1) / t - 1e5) else exp ((1e-7 - 1) / t))
    <= exp (logit x t i j - logit x t i (target_index i)) <=
    (if Nat.eqb j (target_index i) then 1
     else if Nat.eqb j i then exp ((1 - 1e-7) / t - 1e5) else exp ((1 - 1e-7) / t))).
  { intros j Hj.
    destruct (Nat.eqb_spec j (target_index i)) as [->|Hjk].
    - rewrite Rminus_diag, exp_0. lra.
    - rewrite logit_diff.
      replace (Nat.eqb i (target_index i)) with false
        by (symmetry; apply Nat.eqb_neq; lia).
      pose proof (clamped_score_range x i j) as [A1 A2].
      pose proof (clamped_score_range x i (target_index i)) as [B1 B2].
      assert (L : (1e-7 - 1) / t <=
                  (Rmax (score x i j) 1e-7
                   - Rmax (score x i (target_index i)) 1e-7) / t)
        by (apply div_le_pos; [assumption|lra]).
      assert (U : (Rmax (score x i j) 1e-7
                   - Rmax (score x i (target_index i)) 1e-7) / t
                  <= (1 - 1e-7) / t)
        by (apply div_le_pos; [assumption|lra]).
      destruct (Nat.eqb_spec j i) as [->|Hji].
      + rewrite Nat.eqb_refl. split; apply exp_le; lra.
      + replace (Nat.eqb i j) with false by (symmetry; apply Nat.eqb_neq; lia).
        split; apply exp_le; lra. }
  split; apply rsum_map_le; intros j Hj; apply in_seq in Hj; apply Hterm; lia.
Qed.

Lemma loss_bound_arg_pos n a b : (2 <= n)%nat -> 0 < 1 + exp a + (INR n - 2) * exp b.
Proof.
  intros Hn. assert (2 <= INR n) by (apply (le_INR 2); lia).
  pose proof (exp_pos a). pose proof (exp_pos b). nra.
Qed.

(** X4.  On every non-empty batch with an even number n of rows, degenerate
    rows included, and for every t > 0, the loss lies between
    ln(1 + e^((1e-7 - 1)/t - 1e5) + (n - 2) e^((1e-7 - 1)/t)) and
    ln(1 + e^((1 - 1e-7)/t - 1e5) + (n - 2) e^((1 - 1e-7)/t)). *)
Theorem nt_xent_range (x : matrix) (t : R) :
  0 < t -> Nat.Even (length x) -> (0 < length x)%nat ->
  exists v, nt_xent x t = Some v /\
            nt_xent_lower (length x) t <= v <= nt_xent_upper (length x) t.
Proof.
  intros Ht Hev Hn. exists (nt_xent_value x t).
  split; [now apply nt_xent_eq_value|].
  assert (H2 : (2 <= length x)%nat) by (destruct Hev as [m Hm]; lia).
  assert (Hne : map (fun i => ln (row_excess x t i)) (seq 0 (length x)) <> []).
  { intros E. apply (f_equal (@length R)) in E.
    rewrite length_map, length_seq in E. cbn in E. lia. }
  rewrite nt_xent_value_excess. split.
  - apply mean_ge; [exact Hne|].
    intros a Ha. apply in_map_iff in Ha. destruct Ha as (i & <- & Hi).
    apply in_seq in Hi. unfold nt_xent_lower.
    apply ln_le; [now apply loss_bound_arg_pos|].
    apply row_excess_range; (assumption || lia).
  - apply mean_le; [exact Hne|].
    intros a Ha. apply in_map_iff in Ha. destruct Ha as (i & <- & Hi).
    apply in_seq in Hi. unfold nt_xent_upper.
    apply ln_le; [apply row_excess_pos; (assumption || lia)|].
    apply row_excess_range; (assumption || lia).
Qed.

Lemma nt_xent_range_witness :
  0 < 0.5 /\ Nat.Even (length tiny_batch) /\ (0 < length tiny_batch)%nat /\
  exists v, nt_xent tiny_batch 0.5 = Some v /\
            nt_xent_lower (length tiny_batch) 0.5 <= v
            <= nt_xent_upper (length tiny_batch) 0.5.
Proof.
  assert (H1 : 0 < 0.5) by lra.
  assert (H2 : Nat.Even (length tiny_batch)) by (exists 2%nat; reflexivity).
  assert (H3 : (0 < length tiny_batch)%nat) by (cbn; lia).
  repeat (split; [assumption|]).
  exact (nt_xent_range tiny_batch 0.5 H1 H2 H3).
Defined.

Lemma target_index_invol i : target_index (target_index i) = i.
Proof.
  unfold target_index at 2. destruct (Nat.even i) eqn:E.
  - unfold target_index. rewrite Nat.add_1_r, Nat.even_succ, <- Nat.negb_even, E.
    cbn. lia.
  - destruct (odd_mod2 i E) as (_ & _ & H1).
    unfold target_index.
    replace (Nat.even (i - 1)) with true.
    + lia.
    + symmetry. replace i with (S (i - 1)) in E by lia.
      rewrite Nat.even_succ, <- Nat.negb_even in E.
      destruct (Nat.even (i - 1)); [reflexivity|discriminate].
Qed.

Lemma rsum_swap (f : nat -> R) (n : nat) :
  Nat.Even n ->
  rsum (map (fun j => f (target_index j)) (seq 0 n)) = rsum (map f (seq 0 n)).
Proof.
  intros [m ->]. induction m as [|m IH]; [reflexivity|].
  replace (2 * S m)%nat with (S (S (2 * m))) by lia.
  rewrite !seq_S, !map_app, !rsum_app, IH. cbn [Nat.add map rsum fold_right].
  assert (E1 : target_index (2 * m) = S (2 * m)).
  { unfold target_index.
    replace (Nat.even (2 * m)) with true by (symmetry; apply Nat.even_spec; now exists m).
    lia. }
  assert (E2 : target_index (S (2 * m)) = (2 * m)%nat).
  { rewrite <- E1. apply target_index_invol. }
  rewrite E1, E2. lra.
Qed.

Lemma length_swap_views x : length (swap_views x) = length x.
Proof. unfold swap_views. now rewrite length_map, length_seq. Qed.

Lemma nth_swap_views x i :
  (i < length x)%nat -> nth i (swap_views x) [] = nth (target_index i) x [].
Proof. intros Hi. unfold swap_views. now rewrite nth_map_seq. Qed.

Lemma logit_swap_views x t i j :
  (i < length x)%nat -> (j < length x)%nat ->
  logit (swap_views x) t i j = logit x t (target_index i) (target_index j).
Proof.
  intros Hi Hj. unfold logit, score. rewrite !nth_swap_views by assumption.
  replace (Nat.eqb (target_index i) (target_index j)) with (Nat.eqb i j); [reflexivity|].
  destruct (Nat.eqb_spec i j) as [->|N].
  - now rewrite Nat.eqb_refl.
  - symmetry. apply Nat.eqb_neq. intros E. apply N.
    rewrite <- (target_index_invol i), <- (target_index_invol j). now rewrite E.
Qed.

Lemma row_excess_swap_views x t i :
  Nat.Even (length x) -> (i < length x)%nat ->
  row_excess (swap_views x) t i = row_excess x t (target_index i).
Proof.
  intros Hev Hi. pose proof (target_index_lt _ _ Hev Hi) as Hk.
  unfold row_excess. rewrite length_swap_views.
  rewrite <- (rsum_swap
    (fun j => exp (logit x t (target_index i) j
                   - logit x t (target_index i) (target_index (target_index i))))
    (length x) Hev).
  f_equal. apply map_ext_in. intros j Hj. apply in_seq in Hj.
  now rewrite !logit_swap_views by (assumption || lia).
Qed.

Lemma nt_xent_value_swap_views x t :
  Nat.Even (length x) -> nt_xent_value (swap_views x) t = nt_xent_value x t.
Proof.
  intros Hev. rewrite !nt_xent_value_excess, length_swap_views. unfold mean.
  rewrite !length_map. f_equal.
  rewrite <- (rsum_swap (fun i => ln (row_excess x t i)) (length x) Hev).
  f_equal. apply map_ext_in. intros i Hi. apply in_seq in Hi.
  rewrite row_excess_swap_views by (assumption || lia). reflexivity.
Qed.

(** X2.  Exchanging the two views of every pair of a batch with an even
    number of rows leaves the loss unchanged. *)
Theorem nt_xent_swap_views_invariant (x : matrix) (t : R) :
  Nat.Even (length x) ->
  exists v, nt_xent x t = Some v /\ nt_xent (swap_views x) t = Some v.
Proof.
  intros Hev. exists (nt_xent_value x t).
  split; [now apply nt_xent_eq_value|].
  rewrite nt_xent_eq_value by (now rewrite length_swap_views).
  now rewrite nt_xent_value_swap_views.
Qed.

Lemma nt_xent_swap_views_invariant_witness :
  Nat.Even (length long_batch) /\
  swap_views long_batch = [[0; 0]; [3; 4]] /\
  exists v, nt_xent long_batch 0.5 = Some v /\
            nt_xent (swap_views long_batch) 0.5 = Some v.
Proof.
  assert (H : Nat.Even (length long_batch)) by (exists 1%nat; reflexivity).
  split; [exact H|]. split; [reflexivity|].
  exact (nt_xent_swap_views_invariant long_batch 0.5 H).
Defined.

(** ** The full course of a run *)

Lemma for_each_app {A} (l1 l2 : list A) (body : A -> M unit) st :
  for_each (l1 ++ l2) body st = (for_each l1 body ;; for_each l2 body) st.
Proof.
  revert st. induction l1 as [|a l1 IH]; intros st.
  - reflexivity.
  - cbn [app for_each]. unfold bind in *.
    destruct (body a st) as [st1 [[]|e]]; [|reflexivity].
    apply IH.
Qed.

Lemma step_events_S {View} (args : Config) (w : World View) k n :
  step_events args w k (S n) =
  EvOptimizerStep (scaled_rate args w k) :: step_events args w (S k) n.
Proof.
  unfold step_events. cbn [seq map]. rewrite Nat.add_0_r. f_equal.
  rewrite <- seq_shift, map_map. apply map_ext. intros j. do 2 f_equal. lia.
Qed.

Lemma step_events_app {View} (args : Config) (w : World View) k n1 n2 :
  step_events args w k (n1 + n2) =
  step_events args w k n1 ++ step_events args w (k + n1) n2.
Proof.
  revert k. induction n1 as [|n1 IH]; intros k.
  - cbn. now rewrite Nat.add_0_r.
  - cbn [Nat.add]. rewrite !step_events_S, IH. cbn [app].
    now replace (S k + n1)%nat with (k + S n1)%nat by lia.
Qed.

Section TraceFacts.

Variable View : Type.
Variable args : Config.
Variable w : World View.
Hypothesis HT : total_steps args w <> 0%Z.

Lemma batch_ok_views e i :
  batch_ok args w e i ->
  view_pairs (batch_at w e i) = Some (batch_views w e i) /\
  batch_views w e i <> [] /\
  nt_xent (model w e i (batch_views w e i)) (temperature args)
  = Some (batch_loss args w e i).
Proof.
  intros (x & loss & Hx & Hne & Hl). unfold batch_loss, batch_views.
  rewrite Hx, Hl. repeat split; assumption || reflexivity.
Qed.

Lemma train_batch_point e i tr k m :
  batch_ok args w e i -> (0 <= count m)%Z ->
  exists m',
    update m (batch_loss args w e i) (Z.of_nat (length (batch_views w e i))) = Some m' /\
    (0 <= count m')%Z /\
    train_batch args w e i (point args w tr k m) =
    (point args w (tr ++ [EvOptimizerStep (scaled_rate args w k)]) (S k) m', Ok tt).
Proof.
  intros Hok Hc. destruct (batch_ok_views e i Hok) as (Hv & Hne & Hl).
  assert (Hlen : (0 < Z.of_nat (length (batch_views w e i)))%Z).
  { destruct (batch_views w e i); [congruence|cbn [length]; lia]. }
  set (n := Z.of_nat (length (batch_views w e i))) in *.
  set (loss := batch_loss args w e i) in *.
  exists {| name := name m; val := loss; avg := (sum m + loss * IZR n) / IZR (count m + n);
            sum := sum m + loss * IZR n; count := (count m + n)%Z |}.
  assert (Hu : update m loss n =
               Some {| name := name m; val := loss;
                       avg := (sum m + loss * IZR n) / IZR (count m + n);
                       sum := sum m + loss * IZR n; count := (count m + n)%Z |}).
  { unfold update. destruct (Z.eqb_spec (count m + n) 0); [lia|reflexivity]. }
  split; [exact Hu|]. split; [cbn; lia|].
  unfold train_batch. rewrite Hv. unfold bind at 1. unfold lift at 1, ret at 1.
  cbv zeta. rewrite Hl. unfold bind at 1. unfold lift at 1, ret at 1.
  unfold bind, optimizer_step, emit, scheduler_step, point.
  cbn [trace opt_lr last_epoch loss_meter].
  rewrite lr_lambda_some by assumption.
  unfold meter_update. cbn [trace opt_lr last_epoch loss_meter].
  fold n. rewrite Hu. unfold set_loss_meter. cbn [trace opt_lr last_epoch loss_meter].
  unfold scaled_rate. rewrite Nat2Z.inj_succ. unfold Z.succ. reflexivity.
Qed.

Lemma batches_point e n :
  forall s tr k m,
    (forall j, (s <= j < s + n)%nat -> batch_ok args w e j) -> (0 <= count m)%Z ->
    exists m',
      updates m (batch_calls args w e (seq s n)) = Some m' /\
      (0 <= count m')%Z /\
      for_each (seq s n) (train_batch args w e) (point args w tr k m) =
      (point args w (tr ++ step_events args w k n) (k + n) m', Ok tt).
Proof.
  induction n as [|n IH]; intros s tr k m Hok Hc.
  - exists m. cbn. rewrite app_nil_r, Nat.add_0_r. repeat split; assumption || reflexivity.
  - destruct (train_batch_point e s tr k m (Hok s ltac:(lia)) Hc) as (m1 & Hu1 & Hc1 & Hb).
    destruct (IH (S s) (tr ++ [EvOptimizerStep (scaled_rate args w k)]) (S k) m1
                ltac:(intros; apply Hok; lia) Hc1) as (m' & Hu & Hc' & Hf).
    exists m'. split; [|split; [exact Hc'|]].
    + unfold batch_calls in *. cbn [seq map updates]. rewrite Hu1. exact Hu.
    + cbn [seq for_each]. unfold bind. rewrite Hb, Hf.
      rewrite step_events_S, <- app_assoc. cbn [app].
      now replace (S k + n)%nat with (k + S n)%nat by lia.
Qed.

Lemma new_meter_ready nm : (0 <= count (new_meter nm))%Z.
Proof. cbn. lia. Qed.

Lemma train_epoch_point e tr k m :
  log_interval args <> 0%Z ->
  (forall j, (j < len_train_loader w)%nat -> batch_ok args w e j) ->
  exists m',
    updates (new_meter "SimCLR_loss") (epoch_calls args w e) = Some m' /\
    train_epoch args w e (point args w tr k m) =
    (point args w (tr ++ step_events args w k (len_train_loader w)
                      ++ checkpoint_events args e)
           (k + len_train_loader w) m', Ok tt).
Proof.
  intros Hli Hok.
  destruct (batches_point e (len_train_loader w) 0 tr k (new_meter "SimCLR_loss")
              ltac:(intros; apply Hok; lia) (new_meter_ready _)) as (m' & Hu & Hc & Hf).
  exists m'. split; [exact Hu|].
  unfold train_epoch. unfold bind at 1. cbn [set_loss_meter point trace opt_lr last_epoch loss_meter].
  change {| trace := tr; opt_lr := scaled_rate args w k; last_epoch := Z.of_nat k;
            loss_meter := new_meter "SimCLR_loss" |}
    with (point args w tr k (new_meter "SimCLR_loss")).
  unfold bind. rewrite Hf. unfold checkpoint_events.
  destruct (log_interval args <=? e)%Z; cbn [andb].
  - destruct (Z.eqb_spec (log_interval args) 0); [contradiction|].
    destruct (e mod log_interval args =? 0)%Z.
    + unfold emit, point. cbn [trace opt_lr last_epoch loss_meter].
      now rewrite <- app_assoc.
    + unfold ret. now rewrite app_nil_r.
  - unfold ret. now rewrite app_nil_r.
Qed.

Lemma epochs_point eps :
  forall tr k m,
    log_interval args <> 0%Z ->
    (forall e j, In e eps -> (j < len_train_loader w)%nat -> batch_ok args w e j) ->
    exists m',
      (eps = [] -> m' = m) /\
      (eps <> [] ->
       updates (new_meter "SimCLR_loss") (epoch_calls args w (last eps 0%Z)) = Some m') /\
      for_each eps (train_epoch args w) (point args w tr k m) =
      (point args w (tr ++ epochs_events args w k eps)
             (k + length eps * len_train_loader w) m', Ok tt).
Proof.
  induction eps as [|e eps IH]; intros tr k m Hli Hok.
  - exists m. cbn. rewrite app_nil_r, Nat.add_0_r. repeat split; congruence.
  - destruct (train_epoch_point e tr k m Hli ltac:(intros; apply Hok; [now left|assumption]))
      as (m1 & Hu1 & He).
    destruct (IH (tr ++ step_events args w k (len_train_loader w) ++ checkpoint_events args e)
                 (k + len_train_loader w)%nat m1 Hli
                 ltac:(intros; apply Hok; [now right|assumption]))
      as (m' & Hnil & Hlast & Hf).
    exists m'. split; [discriminate|]. split.
    + intros _. destruct eps as [|e' eps'].
      * rewrite (Hnil eq_refl). exact Hu1.
      * apply Hlast. discriminate.
    + cbn [for_each]. unfold bind. rewrite He, Hf.
      cbn [epochs_events length]. rewrite <- !app_assoc.
      replace (k + len_train_loader w + length eps * len_train_loader w)%nat
        with (k + (len_train_loader w + length eps * len_train_loader w))%nat by lia.
      reflexivity.
Qed.

End TraceFacts.

Section RunTraceFacts.

Variable View : Type.
Variable args : Config.
Variable w : World View.

Lemma loop_entry_point :
  loop_entry_state args w = point args w (setup_events args) 0 (new_meter "SimCLR_loss").
Proof. reflexivity. Qed.

Lemma in_range lo n e : In e (range lo n) -> (lo <= e < lo + Z.of_nat n)%Z.
Proof.
  unfold range. intros H. apply in_map_iff in H. destruct H as (i & <- & Hi).
  apply in_seq in Hi. lia.
Qed.

Lemma last_range lo n : (0 < n)%nat -> last (range lo n) 0%Z = (lo + Z.of_nat n - 1)%Z.
Proof.
  intros Hn. destruct n as [|n]; [lia|]. unfold range.
  rewrite seq_S, map_app. cbn [map]. rewrite last_last. lia.
Qed.

Lemma total_steps_nonzero :
  (0 < epochs args)%Z -> (0 < len_train_loader w)%nat -> total_steps args w <> 0%Z.
Proof. intros He Hl. unfold total_steps. nia. Qed.

Lemma run_final_state :
  backbone_ok args = true -> total_steps args w <> 0%Z -> log_interval args <> 0%Z ->
  (forall e j, (1 <= e <= epochs args)%Z -> (j < len_train_loader w)%nat ->
               batch_ok args w e j) ->
  exists m',
    run args w =
    (point args w (expected_trace args w)
           (Z.to_nat (epochs args) * len_train_loader w) m', Ok tt) /\
    ((0 < epochs args)%Z ->
     updates (new_meter "SimCLR_loss") (epoch_calls args w (epochs args)) = Some m').
Proof.
  intros Hb HT Hli Hok.
  rewrite run_enters_loop, loop_entry_point by assumption.
  destruct (epochs_point View args w HT (range 1 (Z.to_nat (epochs args)))
              (setup_events args) 0%nat (new_meter "SimCLR_loss") Hli)
    as (m' & _ & Hlast & Hf).
  { intros e j He Hj. apply Hok; [|assumption]. apply in_range in He. lia. }
  exists m'. split.
  - rewrite Hf. unfold expected_trace, range. now rewrite length_map, length_seq.
  - intros He. rewrite <- Hlast.
    + rewrite last_range by lia. do 2 f_equal. lia.
    + unfold range. destruct (Z.to_nat (epochs args)) eqn:E; [lia|discriminate].
Qed.

Lemma run_zero_steps_trace :
  backbone_ok args = true -> total_steps args w = 0%Z ->
  snd (run args w) = Raise ZeroDivisionError /\
  trace (fst (run args w)) = setup_events args.
Proof.
  intros H HT. unfold run, train, assert_backbone, bind, emit, initial_state.
  cbn [trace opt_lr last_epoch loss_meter app].
  rewrite H. unfold ret, make_optimizer, make_scheduler, scheduler_step.
  cbn [trace opt_lr last_epoch loss_meter Z.add].
  rewrite lr_lambda_none by assumption. cbn. split; reflexivity.
Qed.

Lemma range_cons lo n : range lo (S n) = lo :: range (lo + 1) n.
Proof.
  unfold range. cbn [seq map]. f_equal; [lia|].
  rewrite <- seq_shift, map_map. apply map_ext. intros i. lia.
Qed.

(** The first epoch stops in its batch [i] with exception [e']. *)
Lemma run_stops_in_first_epoch (i : nat) (e' : exn) :
  backbone_ok args = true -> (1 <= epochs args)%Z -> (i < len_train_loader w)%nat ->
  (forall j, (j < i)%nat -> batch_ok args w 1 j) ->
  (forall st, train_batch args w 1 i st = (st, Raise e')) ->
  exists m',
    run args w =
    (point args w (setup_events args ++ step_events args w 0 i) i m', Raise e').
Proof.
  intros Hb He Hi Hok Hbad.
  assert (HT : total_steps args w <> 0%Z) by (apply total_steps_nonzero; lia).
  destruct (batches_point View args w HT 1 i 0 (setup_events args) 0
              (new_meter "SimCLR_loss") ltac:(intros; apply Hok; lia) (new_meter_ready _))
    as (m' & _ & _ & Hf).
  exists m'.
  rewrite run_enters_loop, loop_entry_point by assumption.
  destruct (Z.to_nat (epochs args)) as [|n] eqn:En; [lia|].
  rewrite range_cons. cbn [for_each]. unfold bind at 1.
  unfold train_epoch. unfold bind at 1.
  cbn [set_loss_meter point trace opt_lr last_epoch loss_meter].
  change {| trace := setup_events args; opt_lr := scaled_rate args w 0;
            last_epoch := Z.of_nat 0; loss_meter := new_meter "SimCLR_loss" |}
    with (point args w (setup_events args) 0 (new_meter "SimCLR_loss")).
  unfold bind at 1.
  replace (seq 0 (len_train_loader w))
    with (seq 0 i ++ seq i (len_train_loader w - i))
    by (rewrite <- seq_app; f_equal; lia).
  rewrite for_each_app. unfold bind at 1. rewrite Hf.
  destruct (len_train_loader w - i)%nat as [|r] eqn:Er; [lia|].
  cbn [seq for_each]. unfold bind at 1. rewrite Hbad. reflexivity.
Qed.

Lemma train_batch_bad_view e i st :
  view_pairs (batch_at w e i) = None ->
  train_batch args w e i st = (st, Raise RuntimeError).
Proof. intros H. unfold train_batch, bind. rewrite H. reflexivity. Qed.

Lemma train_batch_bad_loss e i x st :
  view_pairs (batch_at w e i) = Some x ->
  nt_xent (model w e i x) (temperature args) = None ->
  train_batch args w e i st = (st, Raise IndexError).
Proof.
  intros H1 H2. unfold train_batch. rewrite H1. unfold bind at 1.
  unfold lift at 1, ret at 1. cbv zeta. unfold bind. rewrite H2. reflexivity.
Qed.

Lemma run_zero_interval :
  backbone_ok args = true -> (1 <= epochs args)%Z -> (0 < len_train_loader w)%nat ->
  log_interval args = 0%Z ->
  (forall j, (j < len_train_loader w)%nat -> batch_ok args w 1 j) ->
  exists m',
    run args w =
    (point args w (setup_events args ++ step_events args w 0 (len_train_loader w))
           (len_train_loader w) m', Raise ZeroDivisionError).
Proof.
  intros Hb He Hl Hli Hok.
  assert (HT : total_steps args w <> 0%Z) by (apply total_steps_nonzero; lia).
  destruct (batches_point View args w HT 1 (len_train_loader w) 0 (setup_events args) 0
              (new_meter "SimCLR_loss") ltac:(intros; apply Hok; lia) (new_meter_ready _))
    as (m' & _ & _ & Hf).
  exists m'.
  rewrite run_enters_loop, loop_entry_point by assumption.
  destruct (Z.to_nat (epochs args)) as [|n] eqn:En; [lia|].
  rewrite range_cons. cbn [for_each]. unfold bind at 1.
  unfold train_epoch. unfold bind at 1.
  cbn [set_loss_meter point trace opt_lr last_epoch loss_meter].
  change {| trace := setup_events args; opt_lr := scaled_rate args w 0;
            last_epoch := Z.of_nat 0; loss_meter := new_meter "SimCLR_loss" |}
    with (point args w (setup_events args) 0 (new_meter "SimCLR_loss")).
  unfold bind at 1. rewrite Hf, Hli. reflexivity.
Qed.

End RunTraceFacts.

Lemma cosine_rate_last {View} (args : Config) (w : World View) :
  total_steps args w <> 0%Z -> cosine_rate args w (total_steps args w) = 1e-3.
Proof.
  intros HT. unfold cosine_rate.
  assert (IZR (total_steps args w) <> 0) by (intros E; apply eq_IZR_R0 in E; contradiction).
  replace (IZR (total_steps args w) / IZR (total_steps args w) * PI) with PI
    by (field; assumption).
  rewrite cos_PI. lra.
Qed.

Lemma demo_world_batch_ok (args : Config) (e : Z) (j : nat) :
  temperature args = 0.5 -> batch_ok args demo_world e j.
Proof.
  intros Ht. exists [tt; tt], (nt_xent_value [[1]; [1]] 0.5).
  split; [reflexivity|]. split; [discriminate|]. rewrite Ht.
  apply nt_xent_eq_value. exists 1%nat. reflexivity.
Qed.

(** X10.  With a valid backbone and no step to make (no epoch, or a loader
    that yields no batch) the run fails with a division by zero in the
    scheduler's constructor: after the dataset was loaded, the disentangler
    pretrained and the model built, and before any optimizer step. *)
Theorem train_without_steps_fails_after_setup {View} (args : Config) (w : World View) :
  backbone args = "resnet18"%string \/ backbone args = "resnet34"%string ->
  total_steps args w = 0%Z ->
  snd (run args w) = Raise ZeroDivisionError /\
  trace (fst (run args w)) = setup_events args.
Proof.
  intros Hb HT. apply run_zero_steps_trace; [now apply backbone_ok_true|assumption].
Qed.

Lemma train_without_steps_fails_after_setup_witness :
  (backbone (demo_args "resnet18") = "resnet18"%string \/
   backbone (demo_args "resnet18") = "resnet34"%string) /\
  total_steps (demo_args "resnet18") empty_world = 0%Z /\
  snd (run (demo_args "resnet18") empty_world) = Raise ZeroDivisionError /\
  trace (fst (run (demo_args "resnet18") empty_world)) =
    setup_events (demo_args "resnet18").
Proof.
  assert (H1 : backbone (demo_args "resnet18") = "resnet18"%string \/
               backbone (demo_args "resnet18") = "resnet34"%string) by (now left).
  assert (H2 : total_steps (demo_args "resnet18") empty_world = 0%Z) by reflexivity.
  split; [exact H1|]. split; [exact H2|].
  exact (train_without_steps_fails_after_setup (demo_args "resnet18") empty_world H1 H2).
Defined.

(** X11.  With a valid backbone, a non-zero number of steps, a non-zero
    log interval and batches the loop body gets through, the run returns
    normally and its trace is the setup followed, epoch by epoch, by one
    optimizer step per batch at the scheduled rates and then the epoch's
    checkpoint, if one is due. *)
Theorem train_completes_with_trace {View} (args : Config) (w : World View) :
  backbone args = "resnet18"%string \/ backbone args = "resnet34"%string ->
  total_steps args w <> 0%Z -> log_interval args <> 0%Z ->
  (forall e j, (1 <= e <= epochs args)%Z -> (j < len_train_loader w)%nat ->
               batch_ok args w e j) ->
  snd (run args w) = Ok tt /\
  trace (fst (run args w)) = expected_trace args w.
Proof.
  intros Hb HT Hli Hok.
  destruct (run_final_state View args w (backbone_ok_true args Hb) HT Hli Hok)
    as (m' & Hrun & _).
  rewrite Hrun. split; reflexivity.
Qed.

Lemma train_completes_with_trace_witness :
  (backbone (demo_args_interval 2) = "resnet18"%string \/
   backbone (demo_args_interval 2) = "resnet34"%string) /\
  total_steps (demo_args_interval 2) demo_world <> 0%Z /\
  log_interval (demo_args_interval 2) <> 0%Z /\
  snd (run (demo_args_interval 2) demo_world) = Ok tt /\
  trace (fst (run (demo_args_interval 2) demo_world)) =
    [EvLoadDataset "data"; EvBuildLoader 1; EvPretrainDisentangler;
     EvBuildModel "resnet18";
     EvOptimizerStep (scaled_rate (demo_args_interval 2) demo_world 0);
     EvOptimizerStep (scaled_rate (demo_args_interval 2) demo_world 1);
     EvSaveCheckpoint "resnet18" 2].
Proof.
  assert (H1 : backbone (demo_args_interval 2) = "resnet18"%string \/
               backbone (demo_args_interval 2) = "resnet34"%string) by (now left).
  assert (H2 : total_steps (demo_args_interval 2) demo_world <> 0%Z) by (cbn; lia).
  assert (H3 : log_interval (demo_args_interval 2) <> 0%Z) by (cbn; lia).
  split; [exact H1|]. split; [exact H2|]. split; [exact H3|].
  exact (train_completes_with_trace (demo_args_interval 2) demo_world H1 H2 H3
           (fun e j _ _ => demo_world_batch_ok (demo_args_interval 2) e j eq_refl)).
Defined.

(** X12.  With log interval 0 the run fails with a division by zero at the
    checkpoint test of the first epoch, after all optimizer steps of that
    epoch and without a checkpoint. *)
Theorem train_zero_log_interval_fails_after_first_epoch {View}
  (args : Config) (w : World View) :
  backbone args = "resnet18"%string \/ backbone args = "resnet34"%string ->
  (1 <= epochs args)%Z -> (0 < len_train_loader w)%nat ->
  log_interval args = 0%Z ->
  (forall j, (j < len_train_loader w)%nat -> batch_ok args w 1 j) ->
  snd (run args w) = Raise ZeroDivisionError /\
  trace (fst (run args w)) =
    setup_events args ++ step_events args w 0 (len_train_loader w).
Proof.
  intros Hb He Hl Hli Hok.
  destruct (run_zero_interval View args w (backbone_ok_true args Hb) He Hl Hli Hok)
    as (m' & Hrun).
  rewrite Hrun. split; reflexivity.
Qed.

Lemma train_zero_log_interval_fails_after_first_epoch_witness :
  (backbone (demo_args_interval 0) = "resnet18"%string \/
   backbone (demo_args_interval 0) = "resnet34"%string) /\
  (1 <= epochs (demo_args_interval 0))%Z /\ (0 < len_train_loader demo_world)%nat /\
  log_interval (demo_args_interval 0) = 0%Z /\
  snd (run (demo_args_interval 0) demo_world) = Raise ZeroDivisionError /\
  trace (fst (run (demo_args_interval 0) demo_world)) =
    setup_events (demo_args_interval 0)
    ++ step_events (demo_args_interval 0) demo_world 0 (len_train_loader demo_world).
Proof.
  assert (H1 : backbone (demo_args_interval 0) = "resnet18"%string \/
               backbone (demo_args_interval 0) = "resnet34"%string) by (now left).
  assert (H2 : (1 <= epochs (demo_args_interval 0))%Z) by (cbn; lia).
  assert (H3 : (0 < len_train_loader demo_world)%nat) by (cbn; lia).
  assert (H4 : log_interval (demo_args_interval 0) = 0%Z) by reflexivity.
  split; [exact H1|]. split; [exact H2|]. split; [exact H3|]. split; [exact H4|].
  exact (train_zero_log_interval_fails_after_first_epoch (demo_args_interval 0) demo_world
           H1 H2 H3 H4
           (fun j _ => demo_world_batch_ok (demo_args_interval 0) 1 j eq_refl)).
Defined.

(** X13.  If batch i of the first epoch is malformed, the batches before it
    being fine, the run stops there after exactly i optimizer steps: with a
    runtime error when the batch is not a stack of pairs, with an index
    error when the loss of its embedding is undefined. *)
Theorem train_aborts_on_malformed_batch {View} (args : Config) (w : World View) (i : nat) :
  backbone args = "resnet18"%string \/ backbone args = "resnet34"%string ->
  (1 <= epochs args)%Z -> (i < len_train_loader w)%nat ->
  (forall j, (j < i)%nat -> batch_ok args w 1 j) ->
  (view_pairs (batch_at w 1 i) = None ->
   snd (run args w) = Raise RuntimeError /\
   trace (fst (run args w)) = setup_events args ++ step_events args w 0 i) /\
  (forall x, view_pairs (batch_at w 1 i) = Some x ->
             nt_xent (model w 1 i x) (temperature args) = None ->
   snd (run args w) = Raise IndexError /\
   trace (fst (run args w)) = setup_events args ++ step_events args w 0 i).
Proof.
  intros Hb He Hi Hok. split.
  - intros Hv.
    destruct (run_stops_in_first_epoch View args w i RuntimeError
                (backbone_ok_true args Hb) He Hi Hok
                (fun st => train_batch_bad_view View args w 1 i st Hv)) as (m' & Hrun).
    rewrite Hrun. split; reflexivity.
  - intros x Hv Hl.
    destruct (run_stops_in_first_epoch View args w i IndexError
                (backbone_ok_true args Hb) He Hi Hok
                (fun st => train_batch_bad_loss View args w 1 i x st Hv Hl)) as (m' & Hrun).
    rewrite Hrun. split; reflexivity.
Qed.

Lemma first_batch_ok_unpaired_world j :
  (j < 1)%nat -> batch_ok (demo_args_interval 1) unpaired_world 1 j.
Proof.
  intros Hj. assert (j = 0%nat) as -> by lia.
  exists [tt; tt], (nt_xent_value [[1]; [1]] 0.5).
  split; [reflexivity|]. split; [discriminate|].
  apply (nt_xent_eq_value [[1]; [1]] 0.5). exists 1%nat. reflexivity.
Qed.

Lemma first_batch_ok_odd_second_world j :
  (j < 1)%nat -> batch_ok (demo_args_interval 1) odd_second_world 1 j.
Proof.
  intros Hj. assert (j = 0%nat) as -> by lia.
  exists [tt; tt], (nt_xent_value [[1]; [1]] 0.5).
  split; [reflexivity|]. split; [discriminate|].
  apply (nt_xent_eq_value [[1]; [1]] 0.5). exists 1%nat. reflexivity.
Qed.

(** Two epochs of three batches each, the second batch of the first epoch
    being malformed: one optimizer step is made, out of six. *)
Lemma train_aborts_on_malformed_batch_witness :
  (backbone (demo_args_interval 1) = "resnet18"%string \/
   backbone (demo_args_interval 1) = "resnet34"%string) /\
  (1 <= epochs (demo_args_interval 1))%Z /\
  total_steps (demo_args_interval 1) unpaired_world = 6%Z /\
  total_steps (demo_args_interval 1) odd_second_world = 6%Z /\
  (1 < len_train_loader unpaired_world)%nat /\
  (1 < len_train_loader odd_second_world)%nat /\
  (forall j, (j < 1)%nat -> batch_ok (demo_args_interval 1) unpaired_world 1 j) /\
  (forall j, (j < 1)%nat -> batch_ok (demo_args_interval 1) odd_second_world 1 j) /\
  view_pairs (batch_at unpaired_world 1 1) = None /\
  view_pairs (batch_at odd_second_world 1 1) = Some [tt; tt] /\
  nt_xent (model odd_second_world 1 1 [tt; tt])
          (temperature (demo_args_interval 1)) = None /\
  (snd (run (demo_args_interval 1) unpaired_world) = Raise RuntimeError /\
   trace (fst (run (demo_args_interval 1) unpaired_world)) =
     [EvLoadDataset "data"; EvBuildLoader 1; EvPretrainDisentangler;
      EvBuildModel "resnet18";
      EvOptimizerStep (scaled_rate (demo_args_interval 1) unpaired_world 0)]) /\
  (snd (run (demo_args_interval 1) odd_second_world) = Raise IndexError /\
   trace (fst (run (demo_args_interval 1) odd_second_world)) =
     [EvLoadDataset "data"; EvBuildLoader 1; EvPretrainDisentangler;
      EvBuildModel "resnet18";
      EvOptimizerStep (scaled_rate (demo_args_interval 1) odd_second_world 0)]).
Proof.
  assert (H1 : backbone (demo_args_interval 1) = "resnet18"%string \/
               backbone (demo_args_interval 1) = "resnet34"%string) by (now left).
  assert (H2 : (1 <= epochs (demo_args_interval 1))%Z) by (cbn; lia).
  assert (H3 : (1 < len_train_loader unpaired_world)%nat) by (cbn; lia).
  assert (H3' : (1 < len_train_loader odd_second_world)%nat) by (cbn; lia).
  assert (H4 : view_pairs (batch_at unpaired_world 1 1) = @None (list unit))
    by reflexivity.
  assert (H5 : view_pairs (batch_at odd_second_world 1 1) = Some [tt; tt])
    by reflexivity.
  assert (H6 : nt_xent (model odd_second_world 1 1 [tt; tt])
                       (temperature (demo_args_interval 1)) = None).
  { apply (nt_xent_odd_none [[1]]). exists 0%nat. reflexivity. }
  split; [exact H1|]. split; [exact H2|].
  split; [reflexivity|]. split; [reflexivity|].
  split; [exact H3|]. split; [exact H3'|].
  split; [exact first_batch_ok_unpaired_world|].
  split; [exact first_batch_ok_odd_second_world|].
  split; [exact H4|]. split; [exact H5|]. split; [exact H6|].
  split.
  - exact (proj1 (train_aborts_on_malformed_batch (demo_args_interval 1)
                    unpaired_world 1 H1 H2 H3 first_batch_ok_unpaired_world) H4).
  - exact (proj2 (train_aborts_on_malformed_batch (demo_args_interval 1)
                    odd_second_world 1 H1 H2 H3' first_batch_ok_odd_second_world)
                 [tt; tt] H5 H6).
Defined.

(** X14.  After a run that completes at least one epoch, the loss meter is
    the meter a fresh one becomes on the [update] calls of the last epoch
    alone: earlier epochs leave nothing in it. *)
Theorem train_meter_covers_last_epoch {View} (args : Config) (w : World View) :
  backbone args = "resnet18"%string \/ backbone args = "resnet34"%string ->
  (0 < epochs args)%Z -> (0 < len_train_loader w)%nat -> log_interval args <> 0%Z ->
  (forall e j, (1 <= e <= epochs args)%Z -> (j < len_train_loader w)%nat ->
               batch_ok args w e j) ->
  snd (run args w) = Ok tt /\
  updates (new_meter "SimCLR_loss") (epoch_calls args w (epochs args))
  = Some (loss_meter (fst (run args w))).
Proof.
  intros Hb He Hl Hli Hok.
  destruct (run_final_state View args w (backbone_ok_true args Hb)
              (total_steps_nonzero View args w He Hl) Hli Hok) as (m' & Hrun & Hm).
  rewrite Hrun. split; [reflexivity|]. now apply Hm.
Qed.

Lemma train_meter_covers_last_epoch_witness :
  (backbone (demo_args_interval 2) = "resnet18"%string \/
   backbone (demo_args_interval 2) = "resnet34"%string) /\
  (0 < epochs (demo_args_interval 2))%Z /\ (0 < len_train_loader demo_world)%nat /\
  log_interval (demo_args_interval 2) <> 0%Z /\
  snd (run (demo_args_interval 2) demo_world) = Ok tt /\
  updates (new_meter "SimCLR_loss") (epoch_calls (demo_args_interval 2) demo_world 2)
  = Some (loss_meter (fst (run (demo_args_interval 2) demo_world))).
Proof.
  assert (H1 : backbone (demo_args_interval 2) = "resnet18"%string \/
               backbone (demo_args_interval 2) = "resnet34"%string) by (now left).
  assert (H2 : (0 < epochs (demo_args_interval 2))%Z) by (cbn; lia).
  assert (H3 : (0 < len_train_loader demo_world)%nat) by (cbn; lia).
  assert (H4 : log_interval (demo_args_interval 2) <> 0%Z) by (cbn; lia).
  split; [exact H1|]. split; [exact H2|]. split; [exact H3|]. split; [exact H4|].
  exact (train_meter_covers_last_epoch (demo_args_interval 2) demo_world H1 H2 H3 H4
           (fun e j _ _ => demo_world_batch_ok (demo_args_interval 2) e j eq_refl)).
Defined.

(** X15.  After a run that completes, the scheduler has counted
    epochs * batches-per-epoch steps and the optimizer is left at the rate
    learning_rate * 1e-3. *)
Theorem train_final_rate {View} (args : Config) (w : World View) :
  backbone args = "resnet18"%string \/ backbone args = "resnet34"%string ->
  (0 < epochs args)%Z -> (0 < len_train_loader w)%nat -> log_interval args <> 0%Z ->
  (forall e j, (1 <= e <= epochs args)%Z -> (j < len_train_loader w)%nat ->
               batch_ok args w e j) ->
  snd (run args w) = Ok tt /\
  last_epoch (fst (run args w)) = total_steps args w /\
  opt_lr (fst (run args w)) = learning_rate args * 1e-3.
Proof.
  intros Hb He Hl Hli Hok.
  pose proof (total_steps_nonzero View args w He Hl) as HT.
  destruct (run_final_state View args w (backbone_ok_true args Hb) HT Hli Hok)
    as (m' & Hrun & _).
  rewrite Hrun. cbn [fst snd point last_epoch opt_lr].
  assert (E : Z.of_nat (Z.to_nat (epochs args) * len_train_loader w) = total_steps args w).
  { unfold total_steps. rewrite Nat2Z.inj_mul, Z2Nat.id by lia. reflexivity. }
  split; [reflexivity|]. split; [exact E|].
  unfold scaled_rate. rewrite E, cosine_rate_last by assumption. reflexivity.
Qed.

Lemma train_final_rate_witness :
  (backbone (demo_args_interval 2) = "resnet18"%string \/
   backbone (demo_args_interval 2) = "resnet34"%string) /\
  (0 < epochs (demo_args_interval 2))%Z /\ (0 < len_train_loader demo_world)%nat /\
  log_interval (demo_args_interval 2) <> 0%Z /\
  snd (run (demo_args_interval 2) demo_world) = Ok tt /\
  last_epoch (fst (run (demo_args_interval 2) demo_world)) = 2%Z /\
  opt_lr (fst (run (demo_args_interval 2) demo_world)) = 0.5 * 1e-3.
Proof.
  assert (H1 : backbone (demo_args_interval 2) = "resnet18"%string \/
               backbone (demo_args_interval 2) = "resnet34"%string) by (now left).
  assert (H2 : (0 < epochs (demo_args_interval 2))%Z) by (cbn; lia).
  assert (H3 : (0 < len_train_loader demo_world)%nat) by (cbn; lia).
  assert (H4 : log_interval (demo_args_interval 2) <> 0%Z) by (cbn; lia).
  split; [exact H1|]. split; [exact H2|]. split; [exact H3|]. split; [exact H4|].
  exact (train_final_rate (demo_args_interval 2) demo_world H1 H2 H3 H4
           (fun e j _ _ => demo_world_batch_ok (demo_args_interval 2) e j eq_refl)).
Defined.

Lemma in_step_events_checkpoint {View} (args : Config) (w : World View) k n a e :
  ~ In (EvSaveCheckpoint a e) (step_events args w k n).
Proof.
  unfold step_events. intros H. apply in_map_iff in H.
  destruct H as (j & Hj & _). discriminate.
Qed.

Lemma in_checkpoint_events args e' a e :
  In (EvSaveCheckpoint a e) (checkpoint_events args e') <->
  a = backbone args /\ e = e' /\
  (log_interval args <= e)%Z /\ (e mod log_interval args = 0)%Z.
Proof.
  unfold checkpoint_events.
  destruct (Z.leb_spec (log_interval args) e') as [H1|H1];
    destruct (Z.eqb_spec (e' mod log_interval args) 0) as [H2|H2]; cbn [andb In]; split.
  all: try (intros [H|[]]; injection H as <- <-; repeat split; assumption).
  all: try (intros (-> & -> & H3 & H4); (now left) || lia || congruence).
  all: try (intros []).
Qed.

Lemma in_epochs_events {View} (args : Config) (w : World View) eps :
  forall k a e,
    In (EvSaveCheckpoint a e) (epochs_events args w k eps) <->
    a = backbone args /\ In e eps /\
    (log_interval args <= e)%Z /\ (e mod log_interval args = 0)%Z.
Proof.
  induction eps as [|e' eps IH]; intros k a e; cbn [epochs_events In].
  - split; [intros []|intros (_ & [] & _)].
  - rewrite !in_app_iff, in_checkpoint_events, IH. split.
    + intros [H|[(-> & -> & H3 & H4)|(-> & H2 & H3 & H4)]].
      * now apply in_step_events_checkpoint in H.
      * repeat split; auto.
      * repeat split; auto.
    + intros (-> & [->|H2] & H3 & H4).
      * right. left. repeat split; assumption.
      * right. right. repeat split; assumption.
Qed.

Lemma in_range_iff lo n e : In e (range lo n) <-> (lo <= e < lo + Z.of_nat n)%Z.
Proof.
  split; [apply in_range|]. intros H. unfold range. apply in_map_iff.
  exists (Z.to_nat (e - lo)). split; [lia|]. apply in_seq. lia.
Qed.

Lemma in_expected_trace_checkpoint {View} (args : Config) (w : World View) a e :
  In (EvSaveCheckpoint a e) (expected_trace args w) <->
  a = backbone args /\ (1 <= e <= epochs args)%Z /\
  (log_interval args <= e)%Z /\ (e mod log_interval args = 0)%Z.
Proof.
  unfold expected_trace. rewrite in_app_iff, in_epochs_events, in_range_iff. split.
  - intros [H|(-> & H2 & H3 & H4)].
    + cbn in H. repeat destruct H as [H|H]; try discriminate. contradiction.
    + repeat split; try assumption; lia.
  - intros (-> & H2 & H3 & H4). right. repeat split; try assumption; lia.
Qed.

(** X16.  In a run that completes, a checkpoint is written for backbone a
    and epoch e exactly when a is the configured backbone, e is one of the
    epochs 1 .. epochs, e >= log_interval and log_interval divides e. *)
Theorem train_checkpoints_exactly_at_multiples {View} (args : Config) (w : World View) :
  backbone args = "resnet18"%string \/ backbone args = "resnet34"%string ->
  total_steps args w <> 0%Z -> log_interval args <> 0%Z ->
  (forall e j, (1 <= e <= epochs args)%Z -> (j < len_train_loader w)%nat ->
               batch_ok args w e j) ->
  forall a e,
    In (EvSaveCheckpoint a e) (trace (fst (run args w))) <->
    a = backbone args /\ (1 <= e <= epochs args)%Z /\
    (log_interval args <= e)%Z /\ (e mod log_interval args = 0)%Z.
Proof.
  intros Hb HT Hli Hok a e.
  destruct (run_final_state View args w (backbone_ok_true args Hb) HT Hli Hok)
    as (m' & Hrun & _).
  rewrite Hrun. cbn [fst point trace]. apply in_expected_trace_checkpoint.
Qed.

Lemma train_checkpoints_exactly_at_multiples_witness :
  (backbone (demo_args_interval 2) = "resnet18"%string \/
   backbone (demo_args_interval 2) = "resnet34"%string) /\
  total_steps (demo_args_interval 2) demo_world <> 0%Z /\
  log_interval (demo_args_interval 2) <> 0%Z /\
  In (EvSaveCheckpoint "resnet18" 2) (trace (fst (run (demo_args_interval 2) demo_world))) /\
  ~ In (EvSaveCheckpoint "resnet18" 1) (trace (fst (run (demo_args_interval 2) demo_world))).
Proof.
  assert (H1 : backbone (demo_args_interval 2) = "resnet18"%string \/
               backbone (demo_args_interval 2) = "resnet34"%string) by (now left).
  assert (H2 : total_steps (demo_args_interval 2) demo_world <> 0%Z) by (cbn; lia).
  assert (H3 : log_interval (demo_args_interval 2) <> 0%Z) by (cbn; lia).
  pose proof (train_checkpoints_exactly_at_multiples (demo_args_interval 2) demo_world
                H1 H2 H3
                (fun e j _ _ => demo_world_batch_ok (demo_args_interval 2) e j eq_refl))
    as H.
  split; [exact H1|]. split; [exact H2|]. split; [exact H3|]. split.
  - apply (proj2 (H "resnet18"%string 2%Z)). cbn. repeat split; lia.
  - intros Hin. apply (proj1 (H "resnet18"%string 1%Z)) in Hin.
    destruct Hin as (_ & _ & Hle & _). cbn in Hle. lia.
Defined.

(** ** Fetching and flattening a batch *)

Section FetchFacts.

Variables Array Image View Rng : Type.
Variable fromarray : Array -> Image.
Variable transform : Image -> Rng -> View * Rng.

Lemma getitem_none_iff (ds : CIFAR10 Array) idx g :
  getitem fromarray transform ds idx g = None <-> ~ valid_index ds idx.
Proof.
  unfold getitem, valid_index. split.
  - intros H [H1 H2].
    destruct (nth_error_valid _ _ H1) as (arr & Ea).
    destruct (nth_error_valid _ _ H2) as (tg & Et).
    rewrite Ea, Et in H.
    destruct (transform (fromarray arr) g) as [v1 g1].
    destruct (transform (fromarray arr) g1) as [v2 g2]. discriminate.
  - intros H.
    destruct (nth_error (data ds) idx) as [arr|] eqn:Ea; [|reflexivity].
    destruct (nth_error (targets ds) idx) as [tg|] eqn:Et; [|reflexivity].
    exfalso. apply H. split; apply nth_error_Some; congruence.
Qed.

Lemma fetch_none_iff (ds : CIFAR10 Array) idxs :
  forall g, fetch fromarray transform ds idxs g = None <->
            Exists (fun idx => ~ valid_index ds idx) idxs.
Proof.
  induction idxs as [|idx idxs IH]; intros g; cbn [fetch].
  - split; [discriminate|]. intros H. inversion H.
  - destruct (getitem fromarray transform ds idx g) as [[item g1]|] eqn:E.
    + assert (Hv : valid_index ds idx).
      { unfold getitem in E. unfold valid_index.
        destruct (nth_error (data ds) idx) eqn:Ea; [|discriminate].
        destruct (nth_error (targets ds) idx) eqn:Et; [|discriminate].
        split; apply nth_error_Some; congruence. }
      specialize (IH g1).
      destruct (fetch fromarray transform ds idxs g1) as [[items g2]|].
      * split; [discriminate|]. intros H. inversion H; subst; [contradiction|].
        apply IH in H1. discriminate.
      * split; [|reflexivity]. intros _. right. now apply IH.
    + split; [|reflexivity]. intros _. left.
      exact (proj1 (getitem_none_iff ds idx g) E).
Qed.

Lemma fetch_labels (ds : CIFAR10 Array) idxs :
  forall g items g',
    fetch fromarray transform ds idxs g = Some (items, g') ->
    snd (collate items) = labels_of ds idxs /\
    length (fst (collate items)) = length idxs.
Proof.
  induction idxs as [|idx idxs IH]; intros g items g' H; cbn [fetch] in H.
  - injection H as <- <-. split; reflexivity.
  - destruct (getitem fromarray transform ds idx g) as [[item g1]|] eqn:E; [|discriminate].
    destruct (fetch fromarray transform ds idxs g1) as [[items1 g2]|] eqn:F; [|discriminate].
    injection H as <- <-. destruct (IH _ _ _ F) as [H1 H2].
    unfold collate, labels_of in *. cbn [fst snd map length] in *.
    rewrite H1, H2. split; [|reflexivity]. f_equal.
    unfold getitem in E.
    destruct (nth_error (data ds) idx) as [arr|]; [|discriminate].
    destruct (nth_error (targets ds) idx) as [tg|] eqn:Et; [|discriminate].
    destruct (transform (fromarray arr) g) as [v1 g1'].
    destruct (transform (fromarray arr) g1') as [v2 g2'].
    injection E as <- <-. cbn [snd].
    symmetry. now apply nth_error_nth.
Qed.

End FetchFacts.

Lemma view_pairs_some {View} (x : list (list View)) flat :
  view_pairs x = Some flat ->
  Forall (fun p => length p = 2%nat) x /\ flat = concat x.
Proof.
  unfold view_pairs. destruct (forallb _ x) eqn:E; [|discriminate].
  intros H. injection H as <-. split; [|reflexivity].
  apply Forall_forall. intros p Hp.
  rewrite forallb_forall in E. apply Nat.eqb_eq. now apply E.
Qed.

Lemma concat_pairs_layout {View} (x : list (list View)) :
  Forall (fun p => length p = 2%nat) x ->
  length (concat x) = (2 * length x)%nat /\
  forall k b, (k < length x)%nat -> (b < 2)%nat ->
    nth_error (concat x) (2 * k + b) = nth_error (nth k x []) b.
Proof.
  induction 1 as [|p x Hp Hx [IH1 IH2]].
  - split; [reflexivity|]. intros k b Hk. cbn in Hk. lia.
  - destruct p as [|v1 [|v2 [|v3 p]]]; try discriminate.
    cbn [concat app length]. split; [rewrite IH1; lia|].
    intros [|k] b Hk Hb.
    + destruct b as [|[|b]]; [reflexivity|reflexivity|lia].
    + cbn [nth]. replace (2 * S k + b)%nat with (S (S (2 * k + b))) by lia.
      cbn [nth_error]. apply IH2; [cbn in Hk; lia|assumption].
Qed.

(** X19.  Flattening a batch fails exactly when some sample is not a stack
    of two views; when it succeeds on N samples the result has 2N rows and
    row 2k + b is view b of sample k. *)
Theorem view_pairs_layout {View} (x : list (list View)) :
  (view_pairs x = None <-> Exists (fun p => length p <> 2%nat) x) /\
  (forall flat, view_pairs x = Some flat ->
     length flat = (2 * length x)%nat /\
     forall k b, (k < length x)%nat -> (b < 2)%nat ->
       nth_error flat (2 * k + b) = nth_error (nth k x []) b).
Proof.
  split.
  - unfold view_pairs. destruct (forallb _ x) eqn:E.
    + split; [discriminate|]. intros H. exfalso.
      rewrite forallb_forall in E. apply Exists_exists in H.
      destruct H as (p & Hp & Hl). apply Hl. apply Nat.eqb_eq. now apply E.
    + split; [|reflexivity]. intros _. apply Exists_exists.
      assert (H : ~ (forall p, In p x -> Nat.eqb (length p) 2 = true)).
      { intros H. apply forallb_forall in H. congruence. }
      clear E. induction x as [|p x IH].
      * exfalso. apply H. intros p [].
      * destruct (Nat.eqb_spec (length p) 2) as [Hp|Hp].
        -- destruct IH as (q & Hq & Hl).
           { intros H'. apply H. intros q [<-|Hq]; [now apply Nat.eqb_eq|now apply H']. }
           exists q. split; [now right|assumption].
        -- exists p. split; [now left|assumption].
  - intros flat H. apply view_pairs_some in H. destruct H as [Hall ->].
    now apply concat_pairs_layout.
Qed.

(** X17.  Fetching a batch of valid indices succeeds, yields one pair per
    index, and the collated labels are the dataset's labels at these
    indices, in order. *)
Theorem fetch_labels_aligned {Array Image View Rng}
  (fromarray : Array -> Image) (transform : Image -> Rng -> View * Rng)
  (ds : CIFAR10 Array) (idxs : list nat) (g : Rng) :
  Forall (valid_index ds) idxs ->
  exists items g',
    fetch fromarray transform ds idxs g = Some (items, g') /\
    snd (collate items) = labels_of ds idxs /\
    length (fst (collate items)) = length idxs.
Proof.
  intros Hv.
  destruct (fetch_layout Array Image View Rng fromarray transform ds idxs Hv g)
    as (items & g' & flat & Hf & _).
  exists items, g'. split; [exact Hf|].
  exact (fetch_labels Array Image View Rng fromarray transform ds idxs g items g' Hf).
Qed.

Lemma fetch_labels_aligned_witness :
  Forall (valid_index demo_dataset) [2; 0]%nat /\
  exists items g',
    fetch (fun a => a) demo_transform demo_dataset [2; 0]%nat 5%nat = Some (items, g') /\
    snd (collate items) = [2; 0]%Z /\
    length (fst (collate items)) = 2%nat.
Proof.
  split; [exact demo_indices_valid|].
  exact (fetch_labels_aligned (fun a => a) demo_transform demo_dataset [2; 0]%nat 5%nat
           demo_indices_valid).
Defined.

(** X18.  Fetching a batch fails exactly when one of its indices is past the
    end of the data or of the labels. *)
Theorem fetch_fails_iff_invalid_index {Array Image View Rng}
  (fromarray : Array -> Image) (transform : Image -> Rng -> View * Rng)
  (ds : CIFAR10 Array) (idxs : list nat) (g : Rng) :
  fetch fromarray transform ds idxs g = None <->
  Exists (fun idx => ~ valid_index ds idx) idxs.
Proof. apply fetch_none_iff. Qed.
